(** * useDebounce: a debounced callback that always runs the latest closure

    Shallow embedding of [src/app/projects/hooks/useDebounce.ts] together
    with the part of its environment the hook relies on: the host's timer
    queue ([setTimeout]/[clearTimeout]), the cells React keeps for one
    component instance ([useRef], [useEffect], [useMemo]) and the
    trailing-edge [debounce] the hook imports.

    Time is counted in whole milliseconds ([nat]).  A run of the component
    is a list of events: a render of the hook, a call of the debounced
    callback it returned, or the passing of time. *)

From stdpp Require Import base decidable option list sorting.
From Stdlib Require Import Lia.

(** ** Callbacks *)

(** What calling a callback does, as far as its caller can see: it returns,
    it returns a promise that is rejected later, or it throws. *)
Inductive Behaviour := Succeeds | Rejects | Throws.

(** A callback of type [() => void].  [cb_id] stands for the identity of
    the JavaScript closure (React compares dependencies by identity). *)
Record Callback := { cb_id : nat; cb_behaviour : Behaviour }.

#[global] Instance Behaviour_eq_dec : EqDecision Behaviour.
Proof. solve_decision. Defined.

#[global] Instance Callback_eq_dec : EqDecision Callback.
Proof. solve_decision. Defined.

(** How a JavaScript call completes. *)
Inductive Completion := Normal | Throw.

#[global] Instance Completion_eq_dec : EqDecision Completion.
Proof. solve_decision. Defined.

Definition call (cb : Callback) : Completion :=
  match cb_behaviour cb with
  | Throws => Throw
  | Succeeds | Rejects => Normal
  end.

(** ** The world: host timers, debounced functions, hook cells *)

(** A timer of the host.  [tm_owner] names the debounced function whose
    [timerExpired] the timer runs. *)
Record Timer := { tm_id : nat; tm_due : nat; tm_owner : nat }.

(** The closure state of one function made by [debounce(func, wait)]. *)
Record Debounced := { db_wait : nat; db_timerId : option nat }.

(** The cells React keeps for the hook between renders: the ref of line 14,
    the dependency of the effect of lines 17-19 and the dependency and value
    of the memo of lines 22-30 (the value is an index into [instances]). *)
Record Hook := {
  ref_current : option Callback;
  effect_deps : option Callback;
  memo : option (nat * nat)
}.

Record World := {
  now : nat;
  timers : list Timer;
  next_timer : nat;
  instances : list Debounced;
  hook : Hook;
  log : list (nat * Callback);
  uncaught : list (nat * Callback)
}.

Definition set_now (t : nat) (w : World) : World :=
  {| now := t; timers := timers w; next_timer := next_timer w;
     instances := instances w; hook := hook w; log := log w;
     uncaught := uncaught w |}.

Definition set_timers (q : list Timer) (w : World) : World :=
  {| now := now w; timers := q; next_timer := next_timer w;
     instances := instances w; hook := hook w; log := log w;
     uncaught := uncaught w |}.

Definition set_next_timer (n : nat) (w : World) : World :=
  {| now := now w; timers := timers w; next_timer := n;
     instances := instances w; hook := hook w; log := log w;
     uncaught := uncaught w |}.

Definition set_instances (l : list Debounced) (w : World) : World :=
  {| now := now w; timers := timers w; next_timer := next_timer w;
     instances := l; hook := hook w; log := log w;
     uncaught := uncaught w |}.

Definition set_hook (k : Hook) (w : World) : World :=
  {| now := now w; timers := timers w; next_timer := next_timer w;
     instances := instances w; hook := k; log := log w;
     uncaught := uncaught w |}.

Definition set_log (l : list (nat * Callback)) (w : World) : World :=
  {| now := now w; timers := timers w; next_timer := next_timer w;
     instances := instances w; hook := hook w; log := l;
     uncaught := uncaught w |}.

Definition set_uncaught (l : list (nat * Callback)) (w : World) : World :=
  {| now := now w; timers := timers w; next_timer := next_timer w;
     instances := instances w; hook := hook w; log := log w;
     uncaught := l |}.

(** Before the component is mounted. *)
Definition init : World :=
  {| now := 0; timers := []; next_timer := 0; instances := [];
     hook := {| ref_current := None; effect_deps := None; memo := None |};
     log := []; uncaught := [] |}.

(** ** The host's timers *)

(** Modelled from the spec: the timer facility of the single-threaded,
    event-driven host (section 5), which is not part of the sources.  The
    queue is kept in firing order: by due time, and among timers due at the
    same time in the order they were set. *)
Fixpoint enqueue (tm : Timer) (q : list Timer) : list Timer :=
  match q with
  | [] => [tm]
  | x :: q' =>
      if tm_due x <=? tm_due tm then x :: enqueue tm q' else tm :: q
  end.

(** Modelled from the spec: the host's [setTimeout]: a timer with a fresh
    handle, due [wait] milliseconds from now. *)
Definition setTimeout (owner wait : nat) (w : World) : nat * World :=
  let id := next_timer w in
  let tm := {| tm_id := id; tm_due := now w + wait; tm_owner := owner |} in
  (id, set_next_timer (S id) (set_timers (enqueue tm (timers w)) w)).

(** Modelled from the spec: the host's [clearTimeout]: the timer with this
    handle, if it is still pending, will not fire. *)
Definition clearTimeout (id : nat) (w : World) : World :=
  set_timers (filter (λ tm, tm_id tm ≠ id) (timers w)) w.

(** ** The hook's closure [func] (lines 24-26) *)

(** [ref.current?.()]: calls the callback the ref holds now, if it holds
    one; the callback's result is dropped. *)
Definition func (w : World) : World * Completion :=
  match ref_current (hook w) with
  | Some cb => (set_log (log w ++ [(now w, cb)]) w, call cb)
  | None => (w, Normal)
  end.

(** ** debounce *)

Module Lodash.

(** Modelled from the spec: [debounce] of [lodash/debounce], which the hook
    imports (line 2) and which is not part of the sources.  A debounced
    function owns one timer handle; [debounce] itself sets no timer. *)
Definition debounce (wait : nat) (w : World) : nat * World :=
  (length (instances w),
   set_instances (instances w ++ [{| db_wait := wait; db_timerId := None |}]) w).

(** Modelled from the spec: calling the debounced function (the spec's
    [notify()]): cancel the pending timer, if there is one, and start a new
    timer for [wait] milliseconds.  Nothing is invoked by the call. *)
Definition debounced (h : nat) (w : World) : World :=
  match instances w !! h with
  | None => w
  | Some d =>
      let w1 := match db_timerId d with
                | Some id => clearTimeout id w
                | None => w
                end in
      let '(id, w2) := setTimeout h (db_wait d) w1 in
      set_instances
        (<[h := {| db_wait := db_wait d; db_timerId := Some id |}]> (instances w2))
        w2
  end.

(** Modelled from the spec: the timer of a debounced function elapses: the
    timer handle is cleared (Pending to Idle) and the wrapped function, here
    always the hook's [func], is invoked once. *)
Definition timerExpired (h : nat) (w : World) : World * Completion :=
  match instances w !! h with
  | None => (w, Normal)
  | Some d =>
      func (set_instances
              (<[h := {| db_wait := db_wait d; db_timerId := None |}]> (instances w))
              w)
  end.

End Lodash.

(** ** The host's event loop *)

(** Modelled from the spec: one timer of the host comes due: the clock
    stands at its due time (never earlier than it stood), the timer's
    callback runs, and an exception it lets escape is reported by the host,
    which carries on. *)
Definition fire (tm : Timer) (w : World) : World :=
  let w1 := set_now (Nat.max (now w) (tm_due tm)) w in
  let '(w2, c) := Lodash.timerExpired (tm_owner tm) w1 in
  match c with
  | Normal => w2
  | Throw =>
      match ref_current (hook w1) with
      | Some cb => set_uncaught (uncaught w2 ++ [(now w2, cb)]) w2
      | None => w2
      end
  end.

(** Modelled from the spec: the event loop fires, in queue order, the timers
    due by [target].  A fired timer leaves the queue before its callback
    runs. *)
Fixpoint run_due (target : nat) (q : list Timer) (w : World) : World :=
  match q with
  | [] => set_timers [] w
  | tm :: q' =>
      if tm_due tm <=? target
      then run_due target q' (fire tm (set_timers q' w))
      else set_timers q w
  end.

(** Modelled from the spec: [dt] milliseconds pass, and the timers that
    come due in them fire. *)
Definition wait (dt : nat) (w : World) : World :=
  let target := now w + dt in
  set_now (Nat.max (now (run_due target (timers w) w)) target)
          (run_due target (timers w) w).

(** ** The hook (lines 12-33) *)

(** [useMemo(() => debounce(func, delay), [delay])]: a new debounced
    function on the first render and whenever [delay] differs from the
    previous render's; the previous function is dropped as it is. *)
Definition useMemo_debounce (delay : nat) (w : World) : nat * World :=
  let create :=
    let '(h, w1) := Lodash.debounce delay w in
    (h, set_hook {| ref_current := ref_current (hook w1);
                    effect_deps := effect_deps (hook w1);
                    memo := Some (delay, h) |} w1) in
  match memo (hook w) with
  | Some (d, h) => if decide (d = delay) then (h, w) else create
  | None => create
  end.

(** [useEffect(() => { ref.current = callback }, [callback])]. *)
Definition useEffect_ref (callback : Callback) (w : World) : World :=
  let update :=
    set_hook {| ref_current := Some callback;
                effect_deps := Some callback;
                memo := memo (hook w) |} w in
  match effect_deps (hook w) with
  | Some cb0 => if decide (cb0 = callback) then w else update
  | None => update
  end.

(** One render of a component that calls [useDebounce(callback, delay)],
    together with the effect the render commits (React runs it before the
    next event is handled).  [None] is an omitted [delay].  The result is the
    debounced callback. *)
Definition useDebounce (callback : Callback) (delay : option nat) (w : World)
  : nat * World :=
  let delay := default 1000 delay in
  let '(debouncedCallback, w1) := useMemo_debounce delay w in
  (debouncedCallback, useEffect_ref callback w1).

(** ** Runs *)

Inductive Event :=
| Render (callback : Callback) (delay : option nat)
| Notify
| Wait (dt : nat).

(** [Notify] calls the debounced callback the latest render returned;
    before the first render there is none to call. *)
Definition step (e : Event) (w : World) : World :=
  match e with
  | Render cb delay => snd (useDebounce cb delay w)
  | Notify =>
      match memo (hook w) with
      | Some (_, h) => Lodash.debounced h w
      | None => w
      end
  | Wait dt => wait dt w
  end.

Definition exec (tr : list Event) (w : World) : World :=
  fold_left (λ w e, step e w) tr w.

Definition run (tr : list Event) : World := exec tr init.

(** ** Callbacks used in scenarios *)

(** An [onSave] closure: it starts the asynchronous [updateProject] and does
    not wait for it. *)
Definition save (n : nat) : Callback := {| cb_id := n; cb_behaviour := Rejects |}.

(** A closure whose body throws. *)
Definition fails (n : nat) : Callback := {| cb_id := n; cb_behaviour := Throws |}.

(** ** Vocabulary of the statements *)

(** The two states of a debounced function: no timer handle, or one. *)
Inductive SchedulerState := Idle | Pending.

Definition state_of (d : Debounced) : SchedulerState :=
  match db_timerId d with
  | Some _ => Pending
  | None => Idle
  end.

Definition by_due : relation Timer := λ a b, tm_due a ≤ tm_due b.

(** What holds of every world a run reaches. *)
Record wf (w : World) : Prop := {
  wf_fresh : ∀ tm, tm ∈ timers w → tm_id tm < next_timer w;
  wf_nodup : NoDup (tm_id <$> timers w);
  wf_sorted : StronglySorted by_due (timers w);
  wf_due : ∀ tm, tm ∈ timers w → now w ≤ tm_due tm;
  wf_owner : ∀ tm, tm ∈ timers w →
    ∃ d, instances w !! tm_owner tm = Some d ∧ db_timerId d = Some (tm_id tm);
  wf_pending : ∀ h d id, instances w !! h = Some d → db_timerId d = Some id →
    ∃ tm, tm ∈ timers w ∧ tm_id tm = id ∧ tm_owner tm = h;
  wf_memo : ∀ d h, memo (hook w) = Some (d, h) →
    ∃ inst, instances w !! h = Some inst ∧ db_wait inst = d;
  wf_bound : is_Some (memo (hook w)) → is_Some (ref_current (hook w));
  wf_deps : effect_deps (hook w) = ref_current (hook w)
}.

(** What may happen between two calls of the debounced callback while the
    delay stays [d]: a render with that delay, or time passing. *)
Definition quiet_event (d : nat) (e : Event) : Prop :=
  match e with
  | Render _ delay => default 1000 delay = d
  | Wait _ => True
  | Notify => False
  end.

(** The time that passes in a list of events. *)
Fixpoint elapsed (evs : list Event) : nat :=
  match evs with
  | [] => 0
  | Wait g :: rest => g + elapsed rest
  | _ :: rest => elapsed rest
  end.

(** The callback bound after the renders in a list of events, [cb] being
    bound before. *)
Fixpoint rebound (cb : Callback) (evs : list Event) : Callback :=
  match evs with
  | [] => cb
  | Render cb' _ :: rest => rebound cb' rest
  | _ :: rest => rebound cb rest
  end.

(** The callback bound at the moment a timer due in [rem] milliseconds
    expires during the events [evs], if it expires in them: renders before
    that moment rebind, renders after it do not matter. *)
Fixpoint expiry (rem : nat) (cb : Callback) (evs : list Event) : option Callback :=
  match evs with
  | [] => None
  | Render cb' _ :: rest => expiry rem cb' rest
  | Wait g :: rest => if rem <=? g then Some cb else expiry (rem - g) cb rest
  | Notify :: rest => expiry rem cb rest
  end.



(** The same render with the default of [delay] written out. *)
Definition explicit_delay (e : Event) : Event :=
  match e with
  | Render cb None => Render cb (Some 1000)
  | _ => e
  end.

(** The same closure, had its body not failed. *)
Definition succeed (cb : Callback) : Callback :=
  {| cb_id := cb_id cb; cb_behaviour := Succeeds |}.

Definition calm_event (e : Event) : Event :=
  match e with
  | Render cb delay => Render (succeed cb) delay
  | _ => e
  end.

Definition calm_hook (k : Hook) : Hook :=
  {| ref_current := succeed <$> ref_current k;
     effect_deps := succeed <$> effect_deps k;
     memo := memo k |}.

(** The world with every closure replaced by its succeeding twin and the
    host's error reports dropped. *)
Definition calm_world (w : World) : World :=
  {| now := now w; timers := timers w; next_timer := next_timer w;
     instances := instances w; hook := calm_hook (hook w);
     log := prod_map id succeed <$> log w; uncaught := [] |}.

(** ** Vocabulary of the further properties *)

#[global] Instance Event_eq_dec : EqDecision Event.
Proof. solve_decision. Defined.

(** The callback and the delay of the latest render seen so far. *)
Definition latest (acc : option (Callback * nat)) (e : Event)
  : option (Callback * nat) :=
  match e with
  | Render cb delay => Some (cb, default 1000 delay)
  | _ => acc
  end.

Definition last_render (tr : list Event) : option (Callback * nat) :=
  fold_left latest tr None.

(** How often the debounced callback is called in a run. *)
Definition notifies (tr : list Event) : nat :=
  length (filter (λ e, e = Notify) tr).

(** An event that is no render with a delay other than [d]. *)
Definition constant_delay (d : nat) (e : Event) : Prop :=
  match e with
  | Render _ delay => default 1000 delay = d
  | _ => True
  end.

(** ** Proof automation *)

(** Cases on the callback the ref holds and on how its call completes. *)
Ltac ref_cases w :=
  destruct (ref_current (hook w)) as [?cb|]; try destruct (call _);
  simpl; rewrite ?app_nil_r, <- ?app_assoc; done.

(** ** Scenarios of the test suite (lines 70-222)

    The form re-renders with a fresh [onSave] closure after each change. *)

Example test_updates_ui_immediately :
  log (run [Render (save 0) None; Notify; Render (save 1) None; Wait 1100])
  = [(1000, save 1)].
Proof. reflexivity. Qed.

Example test_rapid_input_changes :
  log (run [Render (save 0) None;
            Notify; Render (save 1) None;
            Notify; Render (save 2) None;
            Notify; Render (save 3) None;
            Wait 1100])
  = [(1000, save 3)].
Proof. reflexivity. Qed.

Example test_debounces_input_changes :
  log (run [Render (save 0) None;
            Notify; Render (save 1) None; Wait 500;
            Notify; Render (save 2) None;
            Notify; Render (save 3) None;
            Wait 1100])
  = [(1500, save 3)].
Proof. reflexivity. Qed.

Example test_input_while_save_in_progress :
  log (run [Render (save 0) None;
            Notify; Render (save 1) None; Wait 1100;
            Notify; Render (save 2) None; Wait 1100])
  = [(1000, save 1); (2100, save 2)].
Proof. reflexivity. Qed.

(** * Proofs *)

(** ** The timer queue *)

Lemma enqueue_perm tm q : enqueue tm q ≡ₚ tm :: q.
Proof.
  induction q as [|x q IH]; simpl; [done|].
  destruct (tm_due x <=? tm_due tm); [|done].
  rewrite IH. apply Permutation_swap.
Qed.

Lemma elem_of_enqueue x tm q : x ∈ enqueue tm q ↔ x = tm ∨ x ∈ q.
Proof. rewrite enqueue_perm. apply elem_of_cons. Qed.

Lemma enqueue_sorted tm q :
  StronglySorted by_due q → StronglySorted by_due (enqueue tm q).
Proof.
  induction 1 as [|x q Hq IH Hx]; simpl.
  - repeat constructor.
  - destruct (Nat.leb_spec (tm_due x) (tm_due tm)) as [Hle|Hlt].
    + constructor; [done|].
      rewrite enqueue_perm. by constructor.
    + constructor; [by constructor|].
      constructor; [unfold by_due; lia|].
      eapply Forall_impl; [exact Hx|].
      unfold by_due. intros y Hy. simpl in *. lia.
Qed.

Lemma filter_sorted (P : Timer → Prop) `{∀ x, Decision (P x)} q :
  StronglySorted by_due q → StronglySorted by_due (filter P q).
Proof.
  induction 1 as [|x q Hq IH Hx]; [constructor|].
  rewrite filter_cons. destruct (decide (P x)); [|done].
  constructor; [done|].
  rewrite Forall_forall in *. intros y [_ Hy]%list_elem_of_filter. auto.
Qed.

Lemma timer_id_inj (q : list Timer) a b :
  NoDup (tm_id <$> q) → a ∈ q → b ∈ q → tm_id a = tm_id b → a = b.
Proof.
  induction q as [|x q IH]; simpl; [by intros _ ?%elem_of_nil|].
  rewrite NoDup_cons. intros [Hx Hq] Ha Hb Hab.
  apply elem_of_cons in Ha as [->|Ha]; apply elem_of_cons in Hb as [->|Hb];
    [done| | |by apply IH].
  - destruct Hx. rewrite Hab. by apply list_elem_of_fmap_2.
  - destruct Hx. rewrite <- Hab. by apply list_elem_of_fmap_2.
Qed.

Lemma filter_all {A} (P : A → Prop) `{∀ x, Decision (P x)} (l : list A) :
  (∀ x, x ∈ l → P x) → filter P l = l.
Proof.
  induction l as [|x l IH]; [done|]. intros Hl.
  rewrite filter_cons_True by (apply Hl; left).
  f_equal. apply IH. intros y Hy. apply Hl. by right.
Qed.

Lemma filter_none {A} (P : A → Prop) `{∀ x, Decision (P x)} (l : list A) :
  (∀ x, x ∈ l → ¬ P x) → filter P l = [].
Proof.
  induction l as [|x l IH]; [done|]. intros Hl.
  rewrite filter_cons_False by (apply Hl; left).
  apply IH. intros y Hy. apply Hl. by right.
Qed.

Lemma filter_ext_elem_of {A} (P Q : A → Prop)
    `{∀ x, Decision (P x)} `{∀ x, Decision (Q x)} (l : list A) :
  (∀ x, x ∈ l → P x ↔ Q x) → filter P l = filter Q l.
Proof.
  induction l as [|x l IH]; [done|]. intros Hl.
  rewrite !filter_cons.
  rewrite IH by (intros y Hy; apply Hl; by right).
  destruct (decide (P x)) as [HP|HP], (decide (Q x)) as [HQ|HQ]; try done;
    apply Hl in HP || apply Hl in HQ; done || by left.
Qed.

Lemma due_split target (q : list Timer) :
  length (filter (λ tm, tm_due tm ≤ target) q)
  + length (filter (λ tm, target < tm_due tm) q) = length q.
Proof.
  induction q as [|tm q IH]; [done|].
  rewrite !filter_cons.
  destruct (decide (tm_due tm ≤ target)), (decide (target < tm_due tm));
    simpl; lia.
Qed.

Lemma set_timers_id w : set_timers (timers w) w = w.
Proof. by destruct w. Qed.

(** ** What each operation does to the world *)

Lemma debounced_eq h w d :
  instances w !! h = Some d →
  Lodash.debounced h w =
  {| now := now w;
     timers :=
       enqueue {| tm_id := next_timer w; tm_due := now w + db_wait d; tm_owner := h |}
               (filter (λ tm, db_timerId d ≠ Some (tm_id tm)) (timers w));
     next_timer := S (next_timer w);
     instances :=
       <[h := {| db_wait := db_wait d; db_timerId := Some (next_timer w) |}]> (instances w);
     hook := hook w; log := log w; uncaught := uncaught w |}.
Proof.
  intros Hd. unfold Lodash.debounced. rewrite Hd.
  destruct (db_timerId d) as [id|]; simpl.
  - unfold set_instances, set_next_timer, set_timers; simpl. do 2 f_equal.
    apply list_filter_iff. intros tm. split; congruence.
  - unfold set_instances, set_next_timer, set_timers; simpl. do 2 f_equal.
    symmetry. by apply filter_all.
Qed.

Lemma fire_eq tm w d :
  instances w !! tm_owner tm = Some d →
  fire tm w =
  {| now := Nat.max (now w) (tm_due tm);
     timers := timers w;
     next_timer := next_timer w;
     instances :=
       <[tm_owner tm := {| db_wait := db_wait d; db_timerId := None |}]> (instances w);
     hook := hook w;
     log :=
       log w ++
       match ref_current (hook w) with
       | Some cb => [(Nat.max (now w) (tm_due tm), cb)]
       | None => []
       end;
     uncaught :=
       uncaught w ++
       match ref_current (hook w) with
       | Some cb =>
           match call cb with
           | Normal => []
           | Throw => [(Nat.max (now w) (tm_due tm), cb)]
           end
       | None => []
       end |}.
Proof.
  intros Hd. unfold fire, Lodash.timerExpired, func. simpl.
  rewrite Hd. simpl.
  destruct (ref_current (hook w)) as [cb|]; simpl;
    [destruct (call cb)|];
    unfold set_log, set_uncaught, set_instances, set_now; simpl;
    by rewrite ?app_nil_r.
Qed.

Lemma fire_unbound tm w :
  ref_current (hook w) = None →
  log (fire tm w) = log w ∧ uncaught (fire tm w) = uncaught w.
Proof.
  intros Hcb. unfold fire, Lodash.timerExpired, func. simpl.
  destruct (instances w !! tm_owner tm); simpl; rewrite ?Hcb; done.
Qed.

Lemma useMemo_debounce_eq delay w :
  useMemo_debounce delay w =
  match memo (hook w) with
  | Some (d, h) =>
      if decide (d = delay) then (h, w)
      else (length (instances w),
            set_hook {| ref_current := ref_current (hook w);
                        effect_deps := effect_deps (hook w);
                        memo := Some (delay, length (instances w)) |}
              (set_instances
                 (instances w ++ [{| db_wait := delay; db_timerId := None |}]) w))
  | None =>
      (length (instances w),
       set_hook {| ref_current := ref_current (hook w);
                   effect_deps := effect_deps (hook w);
                   memo := Some (delay, length (instances w)) |}
         (set_instances
            (instances w ++ [{| db_wait := delay; db_timerId := None |}]) w))
  end.
Proof. reflexivity. Qed.

(** A render touches neither the clock, the timer queue, nor the record of
    invocations, and it keeps every debounced function there is. *)
Lemma render_frame cb delay w :
  let w' := snd (useDebounce cb delay w) in
  now w' = now w ∧ timers w' = timers w ∧ next_timer w' = next_timer w ∧
  log w' = log w ∧ uncaught w' = uncaught w ∧
  (∃ new, instances w' = instances w ++ new ∧
          Forall (λ d, db_timerId d = None) new).
Proof.
  unfold useDebounce. rewrite useMemo_debounce_eq.
  assert (∀ w0, instances w0 = instances w0 ++ []) as Hnil
    by (intros; by rewrite app_nil_r).
  destruct (memo (hook w)) as [[d h]|]; [destruct (decide (d = default 1000 delay))|];
    simpl; unfold useEffect_ref; simpl;
    repeat match goal with |- context [match ?x with _ => _ end] => destruct x end;
    simpl; repeat split; eauto using Forall_nil;
    eexists; (split; [reflexivity|]); by repeat constructor.
Qed.

(** After a render the ref holds the callback of that render, and the memo
    holds a debounced function made for the delay of that render. *)
Lemma render_binds cb delay w :
  wf w →
  let w' := snd (useDebounce cb delay w) in
  ref_current (hook w') = Some cb ∧ effect_deps (hook w') = Some cb ∧
  ∃ h, memo (hook w') = Some (default 1000 delay, h) ∧
       h = fst (useDebounce cb delay w) ∧
       ∃ inst, instances w' !! h = Some inst ∧ db_wait inst = default 1000 delay.
Proof.
  intros Hwf. unfold useDebounce. rewrite useMemo_debounce_eq.
  pose proof (wf_deps _ Hwf) as Hdeps.
  assert (∀ l (x : Debounced), (l ++ [x]) !! length l = Some x) as Hsnoc.
  { intros l x. rewrite lookup_app_r by lia. by rewrite Nat.sub_diag. }
  destruct (memo (hook w)) as [[d h]|] eqn:Hm;
    [destruct (decide (d = default 1000 delay)) as [->|]|];
    simpl; unfold useEffect_ref; simpl;
    destruct (effect_deps (hook w)) as [cb0|] eqn:He; simpl;
    try destruct (decide (cb0 = cb)) as [->|]; simpl;
    rewrite ?Hm; repeat split; try congruence; eauto;
    try (eexists; split; [reflexivity|]; split; [reflexivity|]);
    try (destruct (wf_memo _ Hwf _ _ Hm) as (inst & ? & ?); by eauto);
    eexists; (split; [apply Hsnoc|done]).
Qed.

(** ** Every run stays well formed *)

Lemma wf_init : wf init.
Proof.
  constructor; simpl; try done; try constructor;
    try (intros tm Htm; by apply elem_of_nil in Htm).
Qed.

Lemma wf_render cb delay w : wf w → wf (snd (useDebounce cb delay w)).
Proof.
  intros Hwf.
  destruct (render_frame cb delay w) as (Hnow & Htm & Hnext & _ & _ & new & Hinst & Hnew).
  destruct (render_binds cb delay w Hwf) as (Href & Hdeps & h & Hm & _ & inst & Hi & Hw).
  constructor; rewrite ?Hnow, ?Htm, ?Hnext; try apply Hwf.
  - intros tm Hin. destruct (wf_owner _ Hwf tm Hin) as (d & Hd & Hid).
    exists d. split; [|done]. rewrite Hinst. by apply lookup_app_l_Some.
  - intros h' d id Hd Hid. rewrite Hinst in Hd.
    apply lookup_app_Some in Hd as [Hd|[_ Hd]].
    + by apply (wf_pending _ Hwf h' d id).
    + rewrite Forall_forall in Hnew.
      apply list_elem_of_lookup_2 in Hd. apply Hnew in Hd. congruence.
  - intros d' h' Hm'. rewrite Hm in Hm'. injection Hm' as <- <-. eauto.
  - intros _. rewrite Href. eauto.
  - congruence.
Qed.

Lemma wf_debounced h w : wf w → wf (Lodash.debounced h w).
Proof.
  intros Hwf.
  destruct (instances w !! h) as [d|] eqn:Hd;
    [|unfold Lodash.debounced; by rewrite Hd].
  rewrite (debounced_eq _ _ _ Hd).
  set (new := {| tm_id := next_timer w; tm_due := now w + db_wait d; tm_owner := h |}).
  set (q1 := filter (λ tm, db_timerId d ≠ Some (tm_id tm)) (timers w)).
  assert (∀ tm, tm ∈ q1 → tm ∈ timers w) as Hsub.
  { intros tm Hin. by apply list_elem_of_filter in Hin as [_ ?]. }
  assert (∀ tm, tm ∈ q1 → tm_owner tm ≠ h) as Hother.
  { intros tm Hin Heq. apply list_elem_of_filter in Hin as [Hne Hin].
    destruct (wf_owner _ Hwf tm Hin) as (d' & Hd' & Hid). congruence. }
  assert (∀ tm, tm ∈ timers w → tm_owner tm ≠ h → tm ∈ q1) as Hkeep.
  { intros tm Hin Hne. apply list_elem_of_filter. split; [|done].
    intros Hid.
    destruct (wf_pending _ Hwf h d (tm_id tm) Hd Hid) as (tm' & Hin' & Hid' & Ho').
    assert (tm' = tm) by eauto using timer_id_inj, wf_nodup. congruence. }
  assert (h < length (instances w)) as Hlen by eauto using lookup_lt_Some.
  constructor; simpl.
  - intros tm [->|Hin]%elem_of_enqueue; simpl; [lia|].
    apply Hsub, (wf_fresh _ Hwf) in Hin. lia.
  - rewrite enqueue_perm, fmap_cons. apply NoDup_cons. split.
    + intros (tm & Heq & Hin)%list_elem_of_fmap_1.
      apply Hsub, (wf_fresh _ Hwf) in Hin. simpl in Heq. lia.
    + eapply sublist_NoDup; [apply (wf_nodup _ Hwf)|].
      apply fmap_sublist, sublist_filter.
  - apply enqueue_sorted, filter_sorted, Hwf.
  - intros tm [->|Hin]%elem_of_enqueue; simpl; [lia|].
    by apply (wf_due _ Hwf), Hsub.
  - intros tm [->|Hin]%elem_of_enqueue; simpl.
    + eexists. by rewrite list_lookup_insert_eq.
    + rewrite list_lookup_insert_ne by (symmetry; by apply Hother).
      by apply (wf_owner _ Hwf), Hsub.
  - intros h' d' id Hd' Hid. destruct (decide (h' = h)) as [->|Hne].
    + rewrite list_lookup_insert_eq in Hd' by done.
      injection Hd' as <-. simpl in Hid. injection Hid as <-.
      exists new. split; [|done]. apply elem_of_enqueue. by left.
    + rewrite list_lookup_insert_ne in Hd' by done.
      destruct (wf_pending _ Hwf h' d' id Hd' Hid) as (tm & Hin & Hi & Ho).
      exists tm. split; [|done]. apply elem_of_enqueue. right.
      apply Hkeep; congruence.
  - intros d' h' Hm. destruct (wf_memo _ Hwf _ _ Hm) as (inst & Hi & Hw).
    destruct (decide (h' = h)) as [->|Hne].
    + eexists. rewrite list_lookup_insert_eq by done. split; [done|].
      simpl. congruence.
    + exists inst. by rewrite list_lookup_insert_ne.
  - apply Hwf.
  - apply Hwf.
Qed.

Lemma wf_fire tm q w :
  wf (set_timers (tm :: q) w) →
  wf (fire tm (set_timers q w)) ∧
  timers (fire tm (set_timers q w)) = q ∧
  now (fire tm (set_timers q w)) = tm_due tm ∧
  hook (fire tm (set_timers q w)) = hook w ∧
  next_timer (fire tm (set_timers q w)) = next_timer w ∧
  log (fire tm (set_timers q w)) =
    log w ++ match ref_current (hook w) with
             | Some cb => [(tm_due tm, cb)]
             | None => []
             end ∧
  uncaught (fire tm (set_timers q w)) =
    uncaught w ++ match ref_current (hook w) with
                  | Some cb => match call cb with
                               | Normal => []
                               | Throw => [(tm_due tm, cb)]
                               end
                  | None => []
                  end.
Proof.
  intros Hwf.
  destruct (wf_owner _ Hwf tm) as (d & Hd & Hid); [by left|]. simpl in Hd.
  pose proof (wf_due _ Hwf tm) as Hdue. simpl in Hdue.
  pose proof (wf_nodup _ Hwf) as Hnd. simpl in Hnd. apply NoDup_cons in Hnd as [Hfresh Hnd].
  pose proof (wf_sorted _ Hwf) as Hs. simpl in Hs. apply StronglySorted_cons in Hs as [Hhd Hs].
  rewrite (fire_eq tm (set_timers q w) d) by done. simpl.
  rewrite Nat.max_r by (apply Hdue; by left).
  split; [|by repeat split].
  assert (∀ tm', tm' ∈ q → tm_owner tm' ≠ tm_owner tm) as Hother.
  { intros tm' Hin Heq.
    destruct (wf_owner _ Hwf tm') as (d' & Hd' & Hid'); [by right|]. simpl in Hd'.
    destruct Hfresh. apply list_elem_of_fmap. exists tm'. split; [congruence|done]. }
  constructor; simpl.
  - intros tm' Hin. apply (wf_fresh _ Hwf). by right.
  - done.
  - done.
  - intros tm' Hin. rewrite Forall_forall in Hhd. by apply Hhd.
  - intros tm' Hin. rewrite list_lookup_insert_ne by (symmetry; by apply Hother).
    apply (wf_owner _ Hwf). by right.
  - intros h' d' id Hd' Hid'. destruct (decide (h' = tm_owner tm)) as [->|Hne].
    + rewrite list_lookup_insert_eq in Hd' by eauto using lookup_lt_Some.
      injection Hd' as <-. done.
    + rewrite list_lookup_insert_ne in Hd' by done.
      destruct (wf_pending _ Hwf h' d' id Hd' Hid') as (tm' & Hin & Hi & Ho).
      simpl in Hin. apply elem_of_cons in Hin as [->|Hin]; [done|]. eauto.
  - intros d' h' Hm. destruct (wf_memo _ Hwf _ _ Hm) as (inst & Hi & Hw).
    simpl in Hi. destruct (decide (h' = tm_owner tm)) as [->|Hne].
    + eexists. rewrite list_lookup_insert_eq by eauto using lookup_lt_Some.
      split; [done|]. simpl. congruence.
    + exists inst. by rewrite list_lookup_insert_ne.
  - apply Hwf.
  - apply Hwf.
Qed.

(** The event loop fires exactly the timers due by the target, each at its
    due time and each invoking the callback the ref holds. *)
Lemma run_due_spec target q : ∀ w,
  wf (set_timers q w) → now w ≤ target →
  wf (run_due target q w) ∧
  timers (run_due target q w) = filter (λ tm, target < tm_due tm) q ∧
  now (run_due target q w) ≤ target ∧
  hook (run_due target q w) = hook w ∧
  next_timer (run_due target q w) = next_timer w ∧
  log (run_due target q w) =
    log w ++ match ref_current (hook w) with
             | Some cb => (λ tm, (tm_due tm, cb)) <$> filter (λ tm, tm_due tm ≤ target) q
             | None => []
             end ∧
  uncaught (run_due target q w) =
    uncaught w ++ match ref_current (hook w) with
                  | Some cb =>
                      match call cb with
                      | Normal => []
                      | Throw => (λ tm, (tm_due tm, cb)) <$> filter (λ tm, tm_due tm ≤ target) q
                      end
                  | None => []
                  end.
Proof.
  induction q as [|tm q IH]; intros w Hwf Hnow; simpl.
  - split; [done|]. repeat split; try done; ref_cases w.
  - destruct (Nat.leb_spec (tm_due tm) target) as [Hle|Hlt].
    + destruct (wf_fire tm q w Hwf) as (Hwf1 & Htm1 & Hnow1 & Hhook1 & Hnext1 & Hlog1 & Hunc1).
      destruct (IH (fire tm (set_timers q w))) as (H1 & H2 & H3 & H4 & H5 & H6 & H7).
      { rewrite <- Htm1 at 1. by rewrite set_timers_id. }
      { lia. }
      rewrite filter_cons_False by lia. rewrite filter_cons_True by done.
      rewrite H4, H5, H6, H7, Hhook1, Hnext1, Hlog1, Hunc1.
      split; [done|]. repeat split; try done; ref_cases w.
    + pose proof (wf_sorted _ Hwf) as Hs. simpl in Hs.
      apply StronglySorted_cons in Hs as [Hhd Hs]. rewrite Forall_forall in Hhd.
      rewrite filter_all; [rewrite filter_none|].
      * split; [done|]. repeat split; try done; try lia; ref_cases w.
      * intros x [->|Hx]%elem_of_cons; [lia|]. apply Hhd in Hx. unfold by_due in Hx. lia.
      * intros x [->|Hx]%elem_of_cons; [lia|]. apply Hhd in Hx. unfold by_due in Hx. lia.
Qed.

Lemma wait_spec dt w :
  wf w →
  wf (wait dt w) ∧
  now (wait dt w) = now w + dt ∧
  timers (wait dt w) = filter (λ tm, now w + dt < tm_due tm) (timers w) ∧
  hook (wait dt w) = hook w ∧
  next_timer (wait dt w) = next_timer w ∧
  log (wait dt w) =
    log w ++ match ref_current (hook w) with
             | Some cb => (λ tm, (tm_due tm, cb)) <$>
                            filter (λ tm, tm_due tm ≤ now w + dt) (timers w)
             | None => []
             end ∧
  uncaught (wait dt w) =
    uncaught w ++ match ref_current (hook w) with
                  | Some cb =>
                      match call cb with
                      | Normal => []
                      | Throw => (λ tm, (tm_due tm, cb)) <$>
                                   filter (λ tm, tm_due tm ≤ now w + dt) (timers w)
                      end
                  | None => []
                  end.
Proof.
  intros Hwf. unfold wait.
  destruct (run_due_spec (now w + dt) (timers w) w) as (H1 & H2 & H3 & H4 & H5 & H6 & H7);
    [by rewrite set_timers_id|lia|].
  rewrite Nat.max_r by done. simpl.
  split; [|by repeat split].
  constructor; simpl; try apply H1.
  intros tm Hin. rewrite H2 in Hin. apply list_elem_of_filter in Hin as [Hlt _]. lia.
Qed.

Lemma wf_step e w : wf w → wf (step e w).
Proof.
  intros Hwf. destruct e as [cb delay| |dt]; simpl.
  - by apply wf_render.
  - destruct (memo (hook w)) as [[d h]|]; [by apply wf_debounced|done].
  - by apply wait_spec.
Qed.

Lemma wf_exec tr : ∀ w, wf w → wf (exec tr w).
Proof.
  unfold exec. induction tr as [|e tr IH]; simpl; [done|].
  intros w Hwf. by apply IH, wf_step.
Qed.

Lemma wf_run tr : wf (run tr).
Proof. apply wf_exec, wf_init. Qed.

Lemma exec_app tr1 tr2 w : exec (tr1 ++ tr2) w = exec tr2 (exec tr1 w).
Proof. unfold exec. apply fold_left_app. Qed.

Lemma run_app tr1 tr2 : run (tr1 ++ tr2) = exec tr2 (run tr1).
Proof. apply exec_app. Qed.

Lemma run_snoc tr e : run (tr ++ [e]) = step e (run tr).
Proof. by rewrite run_app. Qed.

(** ** Renders and calls, seen from a well-formed world *)

Lemma render_keeps cb delay w h :
  memo (hook w) = Some (default 1000 delay, h) →
  memo (hook (snd (useDebounce cb delay w))) = Some (default 1000 delay, h) ∧
  instances (snd (useDebounce cb delay w)) = instances w.
Proof.
  intros Hm. unfold useDebounce. rewrite useMemo_debounce_eq, Hm.
  rewrite decide_True by done. simpl. unfold useEffect_ref.
  destruct (effect_deps (hook w)) as [cb0|]; [destruct (decide (cb0 = cb))|]; done.
Qed.

Lemma render_fresh cb delay w d0 h0 :
  memo (hook w) = Some (d0, h0) → d0 ≠ default 1000 delay →
  memo (hook (snd (useDebounce cb delay w)))
    = Some (default 1000 delay, length (instances w)) ∧
  instances (snd (useDebounce cb delay w))
    = instances w ++ [{| db_wait := default 1000 delay; db_timerId := None |}].
Proof.
  intros Hm Hne. unfold useDebounce. rewrite useMemo_debounce_eq, Hm.
  rewrite decide_False by done. simpl. unfold useEffect_ref. simpl.
  destruct (effect_deps (hook w)) as [cb0|]; [destruct (decide (cb0 = cb))|]; done.
Qed.

(** A call of the debounced callback replaces the timer of its debounced
    function by a new one, due a delay from now, and does nothing else to
    the queue. *)
Lemma notify_spec w d h :
  wf w → memo (hook w) = Some (d, h) →
  timers (step Notify w) =
    enqueue {| tm_id := next_timer w; tm_due := now w + d; tm_owner := h |}
            (filter (λ tm, tm_owner tm ≠ h) (timers w)) ∧
  now (step Notify w) = now w ∧ hook (step Notify w) = hook w ∧
  log (step Notify w) = log w ∧ uncaught (step Notify w) = uncaught w ∧
  next_timer (step Notify w) = S (next_timer w) ∧
  ∃ inst, instances w !! h = Some inst ∧
    instances (step Notify w) =
      <[h := {| db_wait := d; db_timerId := Some (next_timer w) |}]> (instances w).
Proof.
  intros Hwf Hm. simpl. rewrite Hm.
  destruct (wf_memo _ Hwf _ _ Hm) as (inst & Hi & <-).
  rewrite (debounced_eq _ _ _ Hi). simpl.
  repeat split; eauto. f_equal.
  apply filter_ext_elem_of. intros tm Hin. split.
  - intros Hne Ho. destruct (wf_owner _ Hwf tm Hin) as (d' & Hd' & Hid). congruence.
  - intros Hne Hid.
    destruct (wf_pending _ Hwf h inst (tm_id tm) Hi Hid) as (tm' & Hin' & Hid' & Ho').
    assert (tm' = tm) by eauto using timer_id_inj, wf_nodup. congruence.
Qed.

Lemma notify_log w : log (step Notify w) = log w.
Proof.
  simpl. destruct (memo (hook w)) as [[d h]|]; [|done].
  unfold Lodash.debounced. destruct (instances w !! h) as [inst|]; [|done].
  by destruct (db_timerId inst).
Qed.

(** In the queue a newly set timer comes last among the timers due no later
    than itself. *)
Lemma enqueue_due_last tm q :
  StronglySorted by_due q →
  ∃ l, filter (λ x, tm_due x ≤ tm_due tm) (enqueue tm q) = l ++ [tm].
Proof.
  induction 1 as [|x q Hq IH Hx]; simpl.
  - exists []. by rewrite filter_cons_True.
  - destruct (Nat.leb_spec (tm_due x) (tm_due tm)) as [Hle|Hlt].
    + destruct IH as [l Hl]. exists (x :: l).
      rewrite filter_cons_True by done. by rewrite Hl.
    + exists []. rewrite filter_cons_True by done.
      rewrite filter_none; [done|].
      rewrite Forall_forall in Hx.
      intros y [->|Hy]%elem_of_cons; [lia|]. apply Hx in Hy. unfold by_due in Hy. lia.
Qed.

(** The scheduler can always be used again: a call followed by a wait of the
    delay ends with an invocation of the bound callback, a delay after the
    call. *)
Lemma rearm_fires w d h cb :
  wf w → memo (hook w) = Some (d, h) → ref_current (hook w) = Some cb →
  ∃ l, log (exec [Notify; Wait d] w) = log w ++ l ++ [(now w + d, cb)].
Proof.
  intros Hwf Hm Hcb. unfold exec. cbn [fold_left].
  change (step (Wait d) (step Notify w)) with (wait d (step Notify w)).
  destruct (notify_spec w d h Hwf Hm) as (Htm & Hnow & Hhook & Hlog & _).
  destruct (wait_spec d (step Notify w)) as (_ & _ & _ & _ & _ & Hwl & _);
    [by apply wf_step|].
  rewrite Hwl, Hhook, Hcb, Hlog, Hnow, Htm.
  set (new := {| tm_id := next_timer w; tm_due := now w + d; tm_owner := h |}).
  destruct (enqueue_due_last new (filter (λ tm, tm_owner tm ≠ h) (timers w))) as [l Hl].
  { apply filter_sorted, Hwf. }
  simpl in Hl. rewrite Hl, fmap_app. simpl. eauto.
Qed.


(** A call made while only the timer of the current debounced function can
    be pending leaves exactly one timer, due a delay from now. *)
Lemma notify_alone w d h :
  wf w → memo (hook w) = Some (d, h) →
  Forall (λ tm, tm_owner tm = h) (timers w) →
  wf (step Notify w) ∧
  timers (step Notify w)
    = [{| tm_id := next_timer w; tm_due := now w + d; tm_owner := h |}] ∧
  now (step Notify w) = now w ∧ hook (step Notify w) = hook w ∧
  log (step Notify w) = log w ∧ uncaught (step Notify w) = uncaught w.
Proof.
  intros Hwf Hm Hown. rewrite Forall_forall in Hown.
  destruct (notify_spec w d h Hwf Hm) as (Htm & Hnow & Hhook & Hlog & Hunc & _).
  rewrite filter_none in Htm by (intros tm Hin Hne; by apply Hne, Hown).
  split; [by apply wf_step|]. done.
Qed.

(** ** The claims *)

(** *** Quiet stretches, with or without timers of replaced functions *)

Lemma filter_comm {A} (P Q : A → Prop)
    `{∀ x, Decision (P x)} `{∀ x, Decision (Q x)} (l : list A) :
  filter P (filter Q l) = filter Q (filter P l).
Proof.
  induction l as [|x l IH]; [done|].
  rewrite !filter_cons.
  destruct (decide (Q x)), (decide (P x)); rewrite ?filter_cons;
    repeat case_decide; try done; by rewrite IH.
Qed.

Lemma filter_length_by_owner h (P : Timer → Prop) `{∀ x, Decision (P x)} q :
  length (filter P q)
  = length (filter P (filter (λ tm, tm_owner tm = h) q))
    + length (filter P (filter (λ tm, tm_owner tm ≠ h) q)).
Proof.
  induction q as [|x q IH]; [done|].
  rewrite !filter_cons.
  destruct (decide (tm_owner x = h)), (decide (tm_owner x ≠ h)); try done;
    rewrite ?filter_cons; destruct (decide (P x)); simpl; lia.
Qed.

Lemma filter_enqueue_out (P : Timer → Prop) `{∀ x, Decision (P x)} tm q :
  ¬ P tm → filter P (enqueue tm q) = filter P q.
Proof.
  intros Hn. induction q as [|x q IH]; simpl.
  - by rewrite filter_cons_False.
  - destruct (tm_due x <=? tm_due tm).
    + by rewrite !filter_cons, IH.
    + by rewrite (filter_cons_False _ tm).
Qed.

Lemma filter_enqueue_only (P : Timer → Prop) `{∀ x, Decision (P x)} tm q :
  P tm → (∀ x, x ∈ q → ¬ P x) → filter P (enqueue tm q) = [tm].
Proof.
  intros Hp Hq. apply Permutation_singleton_r.
  rewrite enqueue_perm, filter_cons_True by done.
  by rewrite filter_none.
Qed.




Lemma expiry_late rem cb evs :
  rem ≤ elapsed evs → 0 < elapsed evs → is_Some (expiry rem cb evs).
Proof.
  revert rem cb. induction evs as [|[cb' delay| |g] evs IH]; intros rem cb Hle Hpos;
    simpl in *; try lia; try (by apply IH).
  destruct (Nat.leb_spec rem g); [by eexists|]. apply IH; lia.
Qed.

Lemma expiry_due rem cb evs : is_Some (expiry rem cb evs) → rem ≤ elapsed evs.
Proof.
  revert rem cb. induction evs as [|[cb' delay| |g] evs IH]; intros rem cb Hs;
    simpl in *; try (by apply IH in Hs).
  - by destruct Hs.
  - destruct (Nat.leb_spec rem g); [lia|]. apply IH in Hs. lia.
Qed.

(** A call, seen by owner: the debounced function of the hook has exactly
    the new timer, the timers of other debounced functions are untouched. *)
Lemma notify_parts w d h :
  wf w → memo (hook w) = Some (d, h) →
  wf (step Notify w) ∧
  filter (λ tm, tm_owner tm = h) (timers (step Notify w))
    = [{| tm_id := next_timer w; tm_due := now w + d; tm_owner := h |}] ∧
  filter (λ tm, tm_owner tm ≠ h) (timers (step Notify w))
    = filter (λ tm, tm_owner tm ≠ h) (timers w) ∧
  now (step Notify w) = now w ∧ hook (step Notify w) = hook w ∧
  log (step Notify w) = log w.
Proof.
  intros Hwf Hm.
  destruct (notify_spec w d h Hwf Hm) as (Htm & Hnow & Hhook & Hlog & _).
  split; [by apply wf_step|]. rewrite Htm. repeat split; try done.
  - apply filter_enqueue_only; [done|].
    by intros x [Hne _]%list_elem_of_filter.
  - rewrite filter_enqueue_out by (simpl; intros Hne; by apply Hne).
    apply filter_all. by intros x [Hne _]%list_elem_of_filter.
Qed.

(** Time passing, seen by any class of timers. *)
Lemma wait_parts g w (P : Timer → Prop) `{∀ x, Decision (P x)} :
  wf w →
  filter P (timers (wait g w))
    = filter (λ tm, now w + g < tm_due tm) (filter P (timers w)).
Proof.
  intros Hwf. destruct (wait_spec g w Hwf) as (_ & _ & Htm & _).
  rewrite Htm. apply filter_comm.
Qed.

(** A quiet stretch while the debounced function of the hook is idle: it
    stays idle, and what is invoked is invoked by timers of other debounced
    functions, each at most once. *)
Lemma quiet_idle d h : ∀ evs w cb,
  wf w → memo (hook w) = Some (d, h) → ref_current (hook w) = Some cb →
  Forall (quiet_event d) evs →
  filter (λ tm, tm_owner tm = h) (timers w) = [] →
  wf (exec evs w) ∧ memo (hook (exec evs w)) = Some (d, h) ∧
  ref_current (hook (exec evs w)) = Some (rebound cb evs) ∧
  now (exec evs w) = now w + elapsed evs ∧
  filter (λ tm, tm_owner tm = h) (timers (exec evs w)) = [] ∧
  ∃ l, log (exec evs w) = log w ++ l ∧
       length l + length (filter (λ tm, tm_owner tm ≠ h) (timers (exec evs w)))
       ≤ length (filter (λ tm, tm_owner tm ≠ h) (timers w)).
Proof.
  induction evs as [|e evs IH]; intros w cb Hwf Hm Hcb Hq Hown.
  - unfold exec. simpl. rewrite Nat.add_0_r. split; [done|].
    repeat split; try done. exists []. rewrite app_nil_r. split; [done|simpl; lia].
  - apply Forall_cons in Hq as [He Hq].
    change (exec (e :: evs) w) with (exec evs (step e w)).
    destruct e as [cb' delay| |g]; [|done|].
    + simpl in He. subst d.
      destruct (render_frame cb' delay w) as (Hnow & Htm & _ & Hlog & _).
      destruct (render_binds cb' delay w Hwf) as (Hcb' & _).
      destruct (render_keeps cb' delay w h Hm) as (Hm' & _).
      pose proof (wf_render cb' delay w Hwf) as Hwf'.
      change (step (Render cb' delay) w) with (snd (useDebounce cb' delay w)).
      destruct (IH _ cb' Hwf' Hm' Hcb' Hq) as (H1 & H2 & H3 & H4 & H5 & l & H6 & H7);
        [by rewrite Htm|].
      split; [done|]. rewrite H2, H3, H4, H5, H6, Hnow, Hlog.
      repeat split; try done. exists l. by rewrite <- Htm.
    + change (step (Wait g) w) with (wait g w).
      destruct (wait_spec g w Hwf) as (Hwf' & Hnow & _ & Hhook & _ & Hlog & _).
      rewrite Hcb in Hlog.
      pose proof (wait_parts g w (λ tm, tm_owner tm = h) Hwf) as Hown'.
      pose proof (wait_parts g w (λ tm, tm_owner tm ≠ h) Hwf) as Hoth'.
      rewrite Hown in Hown'. rewrite filter_nil in Hown'.
      destruct (IH (wait g w) cb Hwf') as (H1 & H2 & H3 & H4 & H5 & l & H6 & H7);
        [congruence..|done|done|].
      split; [done|]. rewrite H2, H3, H4, H5, H6, Hnow, Hlog.
      repeat split; try done; [simpl; lia|].
      eexists. rewrite <- app_assoc. split; [done|].
      rewrite length_app, length_fmap.
      pose proof (filter_length_by_owner h (λ tm, tm_due tm ≤ now w + g) (timers w)) as Hsplit.
      rewrite Hown, filter_nil in Hsplit. simpl in Hsplit.
      pose proof (due_split (now w + g) (filter (λ tm, tm_owner tm ≠ h) (timers w))) as Hds.
      rewrite Hoth' in H7. lia.
Qed.

(** A quiet stretch while the debounced function of the hook has a timer
    pending, due in [rem] milliseconds: the timer fires if and when the
    stretch reaches its due time, invoking the callback bound at that
    moment; everything else that is invoked is invoked by timers of other
    debounced functions. *)
Lemma quiet_pending d h : ∀ evs w cb tm rem,
  wf w → memo (hook w) = Some (d, h) → ref_current (hook w) = Some cb →
  Forall (quiet_event d) evs →
  filter (λ tm, tm_owner tm = h) (timers w) = [tm] →
  tm_due tm = now w + rem →
  wf (exec evs w) ∧ memo (hook (exec evs w)) = Some (d, h) ∧
  ref_current (hook (exec evs w)) = Some (rebound cb evs) ∧
  now (exec evs w) = now w + elapsed evs ∧
  match expiry rem cb evs with
  | None =>
      filter (λ tm, tm_owner tm = h) (timers (exec evs w)) = [tm] ∧
      ∃ l, log (exec evs w) = log w ++ l ∧
           length l + length (filter (λ tm, tm_owner tm ≠ h) (timers (exec evs w)))
           ≤ length (filter (λ tm, tm_owner tm ≠ h) (timers w))
  | Some cb' =>
      filter (λ tm, tm_owner tm = h) (timers (exec evs w)) = [] ∧
      ∃ l1 l2, log (exec evs w) = log w ++ l1 ++ [(tm_due tm, cb')] ++ l2 ∧
               length l1 + length l2
               + length (filter (λ tm, tm_owner tm ≠ h) (timers (exec evs w)))
               ≤ length (filter (λ tm, tm_owner tm ≠ h) (timers w))
  end.
Proof.
  induction evs as [|e evs IH]; intros w cb tm rem Hwf Hm Hcb Hq Hown Hdue.
  - unfold exec. simpl. rewrite Nat.add_0_r. split; [done|].
    repeat split; try done. exists []. rewrite app_nil_r. split; [done|simpl; lia].
  - apply Forall_cons in Hq as [He Hq].
    change (exec (e :: evs) w) with (exec evs (step e w)).
    destruct e as [cb' delay| |g]; [|done|].
    + simpl in He. subst d.
      destruct (render_frame cb' delay w) as (Hnow & Htm & _ & Hlog & _).
      destruct (render_binds cb' delay w Hwf) as (Hcb' & _).
      destruct (render_keeps cb' delay w h Hm) as (Hm' & _).
      pose proof (wf_render cb' delay w Hwf) as Hwf'.
      change (step (Render cb' delay) w) with (snd (useDebounce cb' delay w)).
      destruct (IH _ cb' tm rem Hwf' Hm' Hcb' Hq) as (H1 & H2 & H3 & H4 & H5);
        [by rewrite Htm|by rewrite Hnow|].
      split; [done|]. rewrite H2, H3, H4, Hnow.
      repeat split; try done.
      change (expiry rem cb (Render cb' delay :: evs)) with (expiry rem cb' evs).
      rewrite Htm, Hlog in H5. exact H5.
    + change (step (Wait g) w) with (wait g w).
      destruct (wait_spec g w Hwf) as (Hwf' & Hnow & _ & Hhook & _ & Hlog & _).
      rewrite Hcb in Hlog.
      pose proof (wait_parts g w (λ tm, tm_owner tm = h) Hwf) as Hown'.
      pose proof (wait_parts g w (λ tm, tm_owner tm ≠ h) Hwf) as Hoth'.
      rewrite Hown in Hown'.
      pose proof (filter_length_by_owner h (λ tm, tm_due tm ≤ now w + g) (timers w)) as Hsplit.
      rewrite Hown in Hsplit.
      pose proof (due_split (now w + g) (filter (λ tm, tm_owner tm ≠ h) (timers w))) as Hds.
      change (expiry rem cb (Wait g :: evs))
        with (if rem <=? g then Some cb else expiry (rem - g) cb evs).
      change (elapsed (Wait g :: evs)) with (g + elapsed evs).
      change (rebound cb (Wait g :: evs)) with (rebound cb evs).
      destruct (Nat.leb_spec rem g) as [Hle|Hlt].
      * rewrite filter_cons_False, filter_nil in Hown' by lia.
        rewrite filter_cons_True, filter_nil in Hsplit by lia.
        assert (tm ∈ filter (λ tm, tm_due tm ≤ now w + g) (timers w)) as Hin.
        { apply list_elem_of_filter. split; [lia|].
          assert (tm ∈ filter (λ tm, tm_owner tm = h) (timers w)) as Hin
            by (rewrite Hown; by left).
          by apply list_elem_of_filter in Hin as [_ ?]. }
        apply list_elem_of_split in Hin as (L1 & L2 & HF).
        rewrite HF in Hlog, Hsplit. rewrite length_app in Hsplit. simpl in Hsplit.
        destruct (quiet_idle d h evs (wait g w) cb Hwf')
          as (H1 & H2 & H3 & H4 & H5 & l & H6 & H7); [congruence..|done|done|].
        split; [done|]. rewrite H2, H3, H4, H5, H6, Hnow, Hlog.
        repeat split; try done; [lia|].
        exists ((λ tm0, (tm_due tm0, cb)) <$> L1), (((λ tm0, (tm_due tm0, cb)) <$> L2) ++ l).
        split.
        -- by rewrite fmap_app, fmap_cons, <- !app_assoc.
        -- rewrite length_app, !length_fmap. rewrite Hoth' in H7. lia.
      * rewrite filter_cons_True, filter_nil in Hown' by lia.
        rewrite filter_cons_False, filter_nil in Hsplit by lia. simpl in Hsplit.
        destruct (IH (wait g w) cb tm (rem - g) Hwf') as (H1 & H2 & H3 & H4 & H5);
          [congruence..|done|done|lia|].
        split; [done|]. rewrite H2, H3, H4, Hnow.
        repeat split; try done; [lia|].
        rewrite Hlog, Hoth' in H5.
        destruct (expiry (rem - g) cb evs) as [cb'|].
        -- destruct H5 as (H5 & l1 & l2 & H6 & H7). split; [done|].
           exists (((λ tm0, (tm_due tm0, cb)) <$>
                      filter (λ tm0, tm_due tm0 ≤ now w + g) (timers w)) ++ l1), l2.
           rewrite H6, <- !app_assoc. split; [done|].
           rewrite length_app, length_fmap. lia.
        -- destruct H5 as (H5 & l & H6 & H7). split; [done|].
           exists (((λ tm0, (tm_due tm0, cb)) <$>
                      filter (λ tm0, tm_due tm0 ≤ now w + g) (timers w)) ++ l).
           rewrite H6, <- !app_assoc. split; [done|].
           rewrite length_app, length_fmap. lia.
Qed.


Lemma length_zero_nil {A} (l : list A) : length l ≤ 0 → l = [].
Proof. destruct l; simpl; [done|lia]. Qed.




(** C5.  Two calls of the debounced callback more than a delay apart, with
    renders and passing time after each, give two separate invocations, each
    a delay after its own call and each of the callback bound when its timer
    expires.  Whatever else is invoked meanwhile is the firing of a timer
    that a replaced debounced function had pending beforehand; with none
    pending the two invocations are all there is. *)
Theorem settled_periods_invoke_separately tr0 d h cb gap1 gap2 :
  memo (hook (run tr0)) = Some (d, h) →
  ref_current (hook (run tr0)) = Some cb →
  Forall (quiet_event d) gap1 →
  Forall (quiet_event d) gap2 →
  d < elapsed gap1 →
  d ≤ elapsed gap2 → 0 < elapsed gap2 →
  ∃ cb1 cb2 l1 l2 l3,
    expiry d cb gap1 = Some cb1 ∧
    expiry d (rebound cb gap1) gap2 = Some cb2 ∧
    log (run (tr0 ++ Notify :: gap1 ++ Notify :: gap2))
    = log (run tr0) ++ l1 ++ [(now (run tr0) + d, cb1)] ++ l2 ++
      [(now (run tr0) + elapsed gap1 + d, cb2)] ++ l3 ∧
    length l1 + length l2 + length l3
    ≤ length (filter (λ tm, tm_owner tm ≠ h) (timers (run tr0))) ∧
    (Forall (λ tm, tm_owner tm = h) (timers (run tr0)) →
     log (run (tr0 ++ Notify :: gap1 ++ Notify :: gap2))
     = log (run tr0) ++
       [(now (run tr0) + d, cb1); (now (run tr0) + elapsed gap1 + d, cb2)]).
Proof.
  intros Hm Hcb Hq1 Hq2 Hg1 Hg2 Hpos.
  destruct (expiry_late d cb gap1) as [cb1 He1]; [lia..|].
  destruct (expiry_late d (rebound cb gap1) gap2) as [cb2 He2]; [lia..|].
  change (Notify :: gap1 ++ Notify :: gap2)
    with ([Notify] ++ gap1 ++ [Notify] ++ gap2).
  rewrite run_app, !exec_app.
  pose proof (wf_run tr0) as Hwf. set (w := run tr0) in *.
  change (exec [Notify] w) with (step Notify w).
  destruct (notify_parts w d h Hwf Hm) as (Hwf1 & Hown1 & Hoth1 & Hnow1 & Hhook1 & Hlog1).
  set (w1 := step Notify w) in *.
  destruct (quiet_pending d h gap1 w1 cb
              {| tm_id := next_timer w; tm_due := now w + d; tm_owner := h |} d Hwf1)
    as (Hwf2 & Hm2 & Hcb2 & Hnow2 & H2);
    [congruence..|done|exact Hown1|simpl; lia|].
  rewrite He1 in H2. destruct H2 as (Hown2 & l1 & l2 & Hlog2 & Hc2).
  simpl in Hlog2. rewrite Hoth1 in Hc2.
  set (w2 := exec gap1 w1) in *.
  change (exec [Notify] w2) with (step Notify w2).
  destruct (notify_parts w2 d h Hwf2 Hm2) as (Hwf3 & Hown3 & Hoth3 & Hnow3 & Hhook3 & Hlog3).
  set (w3 := step Notify w2) in *.
  destruct (quiet_pending d h gap2 w3 (rebound cb gap1)
              {| tm_id := next_timer w2; tm_due := now w2 + d; tm_owner := h |} d Hwf3)
    as (_ & _ & _ & _ & H4);
    [congruence..|done|exact Hown3|simpl; lia|].
  rewrite He2 in H4. destruct H4 as (_ & l3 & l4 & Hlog4 & Hc4).
  simpl in Hlog4. rewrite Hoth3 in Hc4.
  assert (log (exec gap2 w3)
          = log w ++ l1 ++ [(now w + d, cb1)] ++ (l2 ++ l3) ++
            [(now w + elapsed gap1 + d, cb2)] ++ l4) as Hlog.
  { rewrite Hlog4, Hlog3, Hlog2, Hlog1, Hnow2, Hnow1.
    by rewrite <- !app_assoc. }
  exists cb1, cb2, l1, (l2 ++ l3), l4.
  split; [done|]. split; [done|]. split; [done|].
  split; [rewrite length_app; lia|].
  intros Hown. rewrite Hlog.
  assert (filter (λ tm, tm_owner tm ≠ h) (timers w) = []) as Hnone.
  { rewrite Forall_forall in Hown. apply filter_none.
    intros tm Hin Hne. by apply Hne, Hown. }
  rewrite Hnone in Hc2. simpl in Hc2.
  assert (l1 = []) as -> by (apply length_zero_nil; lia).
  assert (l2 = []) as -> by (apply length_zero_nil; lia).
  assert (l3 = []) as -> by (apply length_zero_nil; lia).
  assert (l4 = []) as -> by (apply length_zero_nil; lia).
  done.
Qed.

Lemma settled_periods_invoke_separately_witness :
  ∃ cb1 cb2 l1 l2 l3,
    expiry 1000 (save 0) [Render (save 1) None; Wait 1100] = Some cb1 ∧
    expiry 1000 (rebound (save 0) [Render (save 1) None; Wait 1100])
           [Render (save 2) None; Wait 1100] = Some cb2 ∧
    log (run ([Render (save 0) None] ++
              Notify :: [Render (save 1) None; Wait 1100] ++
              Notify :: [Render (save 2) None; Wait 1100]))
    = log (run [Render (save 0) None]) ++ l1 ++
      [(now (run [Render (save 0) None]) + 1000, cb1)] ++ l2 ++
      [(now (run [Render (save 0) None])
        + elapsed [Render (save 1) None; Wait 1100] + 1000, cb2)] ++ l3 ∧
    length l1 + length l2 + length l3
    ≤ length (filter (λ tm, tm_owner tm ≠ 0) (timers (run [Render (save 0) None]))) ∧
    (Forall (λ tm, tm_owner tm = 0) (timers (run [Render (save 0) None])) →
     log (run ([Render (save 0) None] ++
               Notify :: [Render (save 1) None; Wait 1100] ++
               Notify :: [Render (save 2) None; Wait 1100]))
     = log (run [Render (save 0) None]) ++
       [(now (run [Render (save 0) None]) + 1000, cb1);
        (now (run [Render (save 0) None])
         + elapsed [Render (save 1) None; Wait 1100] + 1000, cb2)]).
Proof.
  apply (settled_periods_invoke_separately
           [Render (save 0) None] 1000 0 (save 0)
           [Render (save 1) None; Wait 1100] [Render (save 2) None; Wait 1100]).
  - reflexivity.
  - reflexivity.
  - repeat constructor.
  - repeat constructor.
  - simpl. lia.
  - simpl. lia.
  - simpl. lia.
Defined.



(** C3.  A run made of renders only (and of time passing) never invokes a
    callback and never sets a timer; and in every world a render leaves the
    timer queue, the timer counter, the invocations so far and the existing
    debounced functions as they are, a debounced function it creates having
    no timer. *)
Theorem bind_alone_never_invokes tr :
  Forall (λ e, e ≠ Notify) tr →
  (log (run tr) = [] ∧ timers (run tr) = [] ∧ next_timer (run tr) = 0 ∧
   Forall (λ d, db_timerId d = None) (instances (run tr))) ∧
  ∀ w cb delay,
    timers (step (Render cb delay) w) = timers w ∧
    next_timer (step (Render cb delay) w) = next_timer w ∧
    log (step (Render cb delay) w) = log w ∧
    ∃ new, instances (step (Render cb delay) w) = instances w ++ new ∧
           Forall (λ d, db_timerId d = None) new.
Proof.
  intros Hno. split.
  - induction tr as [|e tr IH] using rev_ind; [repeat split; constructor|].
    apply Forall_app in Hno as [Hno He]. rewrite Forall_singleton in He.
    destruct (IH Hno) as (Hlog & Htm & Hnext & Hidle).
    rewrite run_snoc. destruct e as [cb delay| |dt]; [|done|].
    + destruct (render_frame cb delay (run tr)) as (_ & H1 & H2 & H3 & _ & new & H4 & H5).
      simpl. rewrite H1, H2, H3, H4. repeat split; try done.
      by apply Forall_app.
    + change (step (Wait dt) (run tr)) with (wait dt (run tr)).
      destruct (wait_spec dt (run tr) (wf_run tr)) as (_ & _ & H1 & _ & H2 & H3 & _).
      rewrite H1, H2, H3, Htm, Hlog. repeat split; try done.
      * by destruct (ref_current (hook (run tr))).
      * unfold wait. rewrite Htm. done.
  - intros w cb delay.
    destruct (render_frame cb delay w) as (_ & H1 & H2 & H3 & _ & H4). done.
Qed.

Lemma bind_alone_never_invokes_witness :
  log (run [Render (save 1) None; Wait 2000; Render (save 2) (Some 300); Wait 5000]) = [] ∧
  timers (run [Render (save 1) None; Wait 2000; Render (save 2) (Some 300); Wait 5000]) = [].
Proof.
  destruct (bind_alone_never_invokes
              [Render (save 1) None; Wait 2000; Render (save 2) (Some 300); Wait 5000])
    as [(Hlog & Htm & _) _].
  - repeat constructor; discriminate.
  - split; [exact Hlog|exact Htm].
Defined.

(** C8.  A render that omits [delay] is a render with [delay = 1000], and
    so are whole runs.  After such a render the hook holds a debounced
    function whose delay is 1000; a call then sets its timer 1000
    milliseconds ahead, and the callback is invoked 1000 milliseconds after
    the call, not before. *)
Theorem omitted_delay_is_1000 cb w tr :
  useDebounce cb None w = useDebounce cb (Some 1000) w ∧
  run (explicit_delay <$> tr) = run tr ∧
  (∃ h, memo (hook (run (tr ++ [Render cb None]))) = Some (1000, h) ∧
        db_wait <$> instances (run (tr ++ [Render cb None])) !! h = Some 1000 ∧
        filter (λ tm, tm_owner tm = h) (timers (run (tr ++ [Render cb None; Notify])))
        = [{| tm_id := next_timer (run tr); tm_due := now (run tr) + 1000;
              tm_owner := h |}]) ∧
  (∃ l, log (run (tr ++ [Render cb None; Notify; Wait 1000]))
        = log (run tr) ++ l ++ [(now (run tr) + 1000, cb)]) ∧
  ∀ T, timers (run tr) = [] →
       log (run (tr ++ [Render cb None; Notify; Wait T]))
       = log (run tr) ++ if 1000 <=? T then [(now (run tr) + 1000, cb)] else [].
Proof.
  split; [reflexivity|]. split.
  { unfold run. generalize init.
    induction tr as [|e tr IH]; intros w0; [done|].
    rewrite fmap_cons. unfold exec in *. simpl. rewrite IH.
    by destruct e as [cb' [d|]| |dt]. }
  pose proof (wf_run tr) as Hwf.
  destruct (render_frame cb None (run tr)) as (Hnow & Htm & Hnext & Hlog & _).
  destruct (render_binds cb None (run tr) Hwf) as (Hcb & _ & h & Hm & _ & inst & Hi & Hw).
  pose proof (wf_render cb None (run tr) Hwf) as Hwf1.
  simpl in Hm, Hw.
  change [Render cb None; Notify] with ([Render cb None] ++ [Notify]).
  assert (∀ T, [Render cb None; Notify; Wait T] = [Render cb None] ++ [Notify; Wait T])
    as Hsplit by done.
  rewrite app_assoc, !run_snoc.
  change (step (Render cb None) (run tr)) with (snd (useDebounce cb None (run tr))).
  set (w1 := snd (useDebounce cb None (run tr))) in *.
  split; [|split].
  - exists h. split; [done|]. split; [by rewrite Hi, <- Hw|].
    destruct (notify_parts w1 1000 h Hwf1 Hm) as (_ & Hown & _).
    by rewrite Hown, Hnext, Hnow.
  - rewrite Hsplit, app_assoc, run_app, run_snoc.
    change (step (Render cb None) (run tr)) with w1.
    destruct (rearm_fires w1 1000 h cb Hwf1 Hm Hcb) as [l Hl].
    exists l. by rewrite Hl, Hlog, Hnow.
  - intros T Hidle. rewrite Hsplit, app_assoc, run_app, run_snoc.
    change (step (Render cb None) (run tr)) with w1.
    change (exec [Notify; Wait T] w1) with (wait T (step Notify w1)).
    destruct (notify_alone w1 1000 h Hwf1 Hm) as (Hwf2 & Htm2 & Hnow2 & Hhook2 & Hlog2 & _).
    { rewrite Htm, Hidle. constructor. }
    destruct (wait_spec T (step Notify w1) Hwf2) as (_ & _ & _ & _ & _ & Hlog3 & _).
    rewrite Hlog3, Hhook2, Hcb, Htm2, Hlog2, Hlog, Hnow2, Hnow. f_equal.
    rewrite filter_cons, filter_nil. cbn [tm_due].
    destruct (Nat.leb_spec 1000 T); case_decide; try lia; done.
Qed.

Lemma omitted_delay_is_1000_witness :
  log (run ([Render (save 0) (Some 250); Notify; Wait 250] ++
            [Render (save 1) None; Notify; Wait 999])) = [(250, save 0)] ∧
  log (run ([Render (save 0) (Some 250); Notify; Wait 250] ++
            [Render (save 1) None; Notify; Wait 1000])) = [(250, save 0); (1250, save 1)].
Proof.
  destruct (omitted_delay_is_1000 (save 1) init
              [Render (save 0) (Some 250); Notify; Wait 250]) as (_ & _ & _ & _ & H).
  split.
  - rewrite (H 999); reflexivity.
  - rewrite (H 1000); reflexivity.
Defined.

(** C9.  While the ref is still empty, [func] invokes nothing and completes
    normally, and so does a timer that fires: no invocation is recorded and
    the host sees no exception. *)
Theorem unbound_ref_fires_harmlessly w :
  ref_current (hook w) = None →
  func w = (w, Normal) ∧
  ∀ tm, log (fire tm w) = log w ∧ uncaught (fire tm w) = uncaught w ∧
        snd (Lodash.timerExpired (tm_owner tm) w) = Normal.
Proof.
  intros Hnone. split; [unfold func; by rewrite Hnone|].
  intros tm. destruct (fire_unbound tm w Hnone) as [-> ->].
  repeat split. unfold Lodash.timerExpired, func.
  destruct (instances w !! tm_owner tm); simpl; by rewrite ?Hnone.
Qed.

Lemma unbound_ref_fires_harmlessly_witness :
  let w := Lodash.debounced 0 (snd (useMemo_debounce 1000 init)) in
  timers w = [{| tm_id := 0; tm_due := 1000; tm_owner := 0 |}] ∧
  log (fire {| tm_id := 0; tm_due := 1000; tm_owner := 0 |} w) = log w.
Proof.
  split; [reflexivity|].
  apply (unbound_ref_fires_harmlessly
           (Lodash.debounced 0 (snd (useMemo_debounce 1000 init)))).
  reflexivity.
Defined.

(** C4, as stated, fails: a timer set under the old delay is still in the
    queue after the render that changes the delay, and with no further call
    it fires and invokes the bound callback after the change. *)
Lemma delay_change_keeps_old_timer :
  ¬ (∀ tr cb d0 h0 d dt,
       memo (hook (run tr)) = Some (d0, h0) → d ≠ d0 →
       log (run (tr ++ [Render cb (Some d); Wait dt])) = log (run tr)).
Proof.
  intros H.
  specialize (H [Render (save 1) (Some 1000); Notify; Wait 100]
                (save 1) 1000 0 500 900 eq_refl).
  vm_compute in H. discriminate H. lia.
Qed.

(** C4, amended.  A render with a changed delay creates a fresh debounced
    function with no timer, which later calls use, and leaves the timer
    queue as it is: every timer set under the old delay stays scheduled and
    fires at its due time, invoking the callback bound by then. *)
Theorem delay_change_creates_fresh_function tr cb d0 h0 d :
  memo (hook (run tr)) = Some (d0, h0) → d ≠ d0 →
  instances (run (tr ++ [Render cb (Some d)]))
    = instances (run tr) ++ [{| db_wait := d; db_timerId := None |}] ∧
  memo (hook (run (tr ++ [Render cb (Some d)])))
    = Some (d, length (instances (run tr))) ∧
  timers (run (tr ++ [Render cb (Some d)])) = timers (run tr) ∧
  log (run (tr ++ [Render cb (Some d)])) = log (run tr) ∧
  ∀ dt,
    log (run (tr ++ [Render cb (Some d); Wait dt]))
    = log (run tr) ++
      ((λ tm, (tm_due tm, cb)) <$>
         filter (λ tm, tm_due tm ≤ now (run tr) + dt) (timers (run tr))).
Proof.
  intros Hm Hne.
  pose proof (wf_run tr) as Hwf.
  destruct (render_frame cb (Some d) (run tr)) as (Hnow & Htm & _ & Hlog & _).
  destruct (render_fresh cb (Some d) (run tr) d0 h0 Hm) as (Hm' & Hinst); [done|].
  destruct (render_binds cb (Some d) (run tr) Hwf) as (Hcb & _).
  rewrite run_snoc. simpl in *. repeat split; try done.
  intros dt.
  change [Render cb (Some d); Wait dt] with ([Render cb (Some d)] ++ [Wait dt]).
  rewrite app_assoc, !run_snoc.
  change (step (Wait dt) ?x) with (wait dt x).
  destruct (wait_spec dt (step (Render cb (Some d)) (run tr)))
    as (_ & _ & _ & _ & _ & Hwl & _); [by apply wf_step|].
  rewrite Hwl. simpl. by rewrite Hcb, Hlog, Htm, Hnow.
Qed.

Lemma delay_change_creates_fresh_function_witness :
  log (run ([Render (save 1) (Some 1000); Notify; Wait 100] ++
            [Render (save 2) (Some 500); Wait 900]))
  = [(1000, save 2)].
Proof.
  destruct (delay_change_creates_fresh_function
              [Render (save 1) (Some 1000); Notify; Wait 100] (save 2) 1000 0 500)
    as (_ & _ & _ & _ & Hfire).
  - reflexivity.
  - lia.
  - rewrite (Hfire 900). reflexivity.
Defined.

(** ** Where pending timers and invocations come from *)

(** Every pending timer was set by an earlier call of the debounced
    callback, a delay before it is due; every invocation was made while time
    passed, by a timer set by an earlier call, at that timer's due time. *)
Lemma armed_by_notify tr :
  (∀ tm, tm ∈ timers (run tr) →
     ∃ pre post d h,
       tr = pre ++ Notify :: post ∧
       memo (hook (run pre)) = Some (d, h) ∧
       tm_due tm = now (run pre) + d) ∧
  (∀ i t cb, log (run tr) !! i = Some (t, cb) →
     ∃ pre mid dt post d h,
       tr = pre ++ Notify :: mid ++ Wait dt :: post ∧
       memo (hook (run pre)) = Some (d, h) ∧
       t = now (run pre) + d ∧
       length (log (run (pre ++ Notify :: mid))) ≤ i ∧
       i < length (log (run (pre ++ Notify :: mid ++ [Wait dt])))).
Proof.
  induction tr as [|e tr [IHt IHl]] using rev_ind.
  - split; [intros tm Hin; by apply elem_of_nil in Hin|by intros i t cb Hi].
  - pose proof (wf_run tr) as Hwf.
    assert (∀ tm, tm ∈ timers (run tr) →
              ∃ pre post d h,
                tr ++ [e] = pre ++ Notify :: post ∧
                memo (hook (run pre)) = Some (d, h) ∧
                tm_due tm = now (run pre) + d) as IHt'.
    { intros tm Hin. destruct (IHt tm Hin) as (pre & post & d & h & -> & Hm & Hdue).
      exists pre, (post ++ [e]), d, h. by rewrite <- app_assoc. }
    assert (∀ i t cb, log (run tr) !! i = Some (t, cb) →
              ∃ pre mid dt post d h,
                tr ++ [e] = pre ++ Notify :: mid ++ Wait dt :: post ∧
                memo (hook (run pre)) = Some (d, h) ∧
                t = now (run pre) + d ∧
                length (log (run (pre ++ Notify :: mid))) ≤ i ∧
                i < length (log (run (pre ++ Notify :: mid ++ [Wait dt])))) as IHl'.
    { intros i t cb Hi.
      destruct (IHl i t cb Hi) as (pre & mid & dt & post & d & h & -> & Hm & Ht & Hlo & Hhi).
      exists pre, mid, dt, (post ++ [e]), d, h. split; [|done].
      rewrite <- !app_assoc. simpl. by rewrite <- app_assoc. }
    rewrite run_snoc. destruct e as [cb' delay| |dt].
    + destruct (render_frame cb' delay (run tr)) as (_ & Htm & _ & Hlog & _).
      simpl. rewrite Htm, Hlog. done.
    + rewrite notify_log. split; [|done].
      destruct (memo (hook (run tr))) as [[d h]|] eqn:Hm;
        [|simpl; by rewrite Hm].
      destruct (notify_spec (run tr) d h Hwf Hm) as (Htm & _).
      rewrite Htm. intros tm [->|Hin]%elem_of_enqueue.
      * exists tr, [], d, h. done.
      * apply list_elem_of_filter in Hin as [_ Hin]. by apply IHt'.
    + change (step (Wait dt) (run tr)) with (wait dt (run tr)).
      destruct (wait_spec dt (run tr) Hwf) as (_ & _ & Htm & _ & _ & Hlog & _).
      split.
      * rewrite Htm. intros tm [_ Hin]%list_elem_of_filter. by apply IHt'.
      * intros i t cb Hi.
        assert (i < length (log (wait dt (run tr)))) as Hlt
          by eauto using lookup_lt_Some.
        rewrite Hlog in Hi. apply lookup_app_Some in Hi as [Hi|[Hge Hi]];
          [by apply (IHl' i t cb)|].
        destruct (ref_current (hook (run tr))) as [cb0|]; [|done].
        apply list_lookup_fmap_Some in Hi as (tm & Heq & Hi).
        injection Heq as -> ->.
        apply list_elem_of_lookup_2, list_elem_of_filter in Hi as [_ Hin].
        destruct (IHt tm Hin) as (pre & post & d & h & Htr & Hm & Hdue).
        exists pre, post, dt, [], d, h.
        assert (pre ++ Notify :: post ++ [Wait dt] = tr ++ [Wait dt]) as ->
          by (by rewrite Htr, <- app_assoc).
        rewrite <- Htr, run_snoc. done.
Qed.

(** C10.  A call of the debounced callback invokes nothing itself.  Every
    invocation in a run was made during a later passing of time, by the
    expiry of a timer that a call had set a delay earlier. *)
Theorem no_leading_edge_invocation tr :
  (∀ w, log (step Notify w) = log w) ∧
  ∀ i t cb, log (run tr) !! i = Some (t, cb) →
    ∃ pre mid dt post d h,
      tr = pre ++ Notify :: mid ++ Wait dt :: post ∧
      memo (hook (run pre)) = Some (d, h) ∧
      t = now (run pre) + d ∧
      length (log (run (pre ++ Notify :: mid))) ≤ i ∧
      i < length (log (run (pre ++ Notify :: mid ++ [Wait dt]))).
Proof.
  split; [apply notify_log|apply armed_by_notify].
Qed.

Lemma no_leading_edge_invocation_witness :
  ∃ pre mid dt post d h,
    [Render (save 1) None; Notify; Render (save 2) None; Wait 1000]
      = pre ++ Notify :: mid ++ Wait dt :: post ∧
    memo (hook (run pre)) = Some (d, h) ∧
    1000 = now (run pre) + d ∧
    length (log (run (pre ++ Notify :: mid))) ≤ 0 ∧
    0 < length (log (run (pre ++ Notify :: mid ++ [Wait dt]))).
Proof.
  destruct (no_leading_edge_invocation
              [Render (save 1) None; Notify; Render (save 2) None; Wait 1000])
    as [_ H].
  apply (H 0 1000 (save 2)). reflexivity.
Defined.

(** C6.  The debounced function the hook holds is a two-state machine.  A
    call in either state leaves it Pending with exactly one timer, newly
    set and due a delay from now, and invokes nothing; in Idle it had no
    timer, in Pending its old timer is gone from the queue.  The expiry of
    a timer at the head of the queue takes its owner from Pending to Idle,
    removes the timer, and invokes the bound callback exactly once.  And
    whatever happened before, a call followed by a wait of the delay ends
    with an invocation. *)
Theorem scheduler_is_a_two_state_machine tr d h inst :
  memo (hook (run tr)) = Some (d, h) →
  instances (run tr) !! h = Some inst →
  (∃ inst', instances (run (tr ++ [Notify])) !! h = Some inst' ∧
            state_of inst' = Pending ∧
            db_timerId inst' = Some (next_timer (run tr))) ∧
  filter (λ tm, tm_owner tm = h) (timers (run (tr ++ [Notify])))
    = [{| tm_id := next_timer (run tr); tm_due := now (run tr) + d; tm_owner := h |}] ∧
  log (run (tr ++ [Notify])) = log (run tr) ∧
  (state_of inst = Idle →
     filter (λ tm, tm_owner tm = h) (timers (run tr)) = []) ∧
  (state_of inst = Pending →
     ∃ old, tm_owner old = h ∧ db_timerId inst = Some (tm_id old) ∧
            old ∈ timers (run tr) ∧
            ∀ tm, tm ∈ timers (run (tr ++ [Notify])) → tm_id tm ≠ tm_id old) ∧
  (∀ tm q cb,
     timers (run tr) = tm :: q →
     ref_current (hook (run tr)) = Some cb →
     ∃ o o',
       instances (run tr) !! tm_owner tm = Some o ∧ state_of o = Pending ∧
       instances (fire tm (set_timers q (run tr))) !! tm_owner tm = Some o' ∧
       state_of o' = Idle ∧
       timers (fire tm (set_timers q (run tr))) = q ∧ (tm ∉ q) ∧
       log (fire tm (set_timers q (run tr))) = log (run tr) ++ [(tm_due tm, cb)]) ∧
  ∃ cb l,
    ref_current (hook (run tr)) = Some cb ∧
    log (run (tr ++ [Notify; Wait d])) = log (run tr) ++ l ++ [(now (run tr) + d, cb)].
Proof.
  intros Hm Hinst. pose proof (wf_run tr) as Hwf. rewrite run_snoc, run_app.
  set (w := run tr) in *.
  destruct (notify_spec w d h Hwf Hm) as (Htm & _ & _ & Hlog & _ & _ & inst0 & Hi0 & Hins).
  assert (h < length (instances w)) as Hlen by eauto using lookup_lt_Some.
  assert (∀ tm, tm ∈ timers w → tm_owner tm = h → db_timerId inst = Some (tm_id tm)) as Hmine.
  { intros tm Hin Ho. destruct (wf_owner _ Hwf tm Hin) as (o & Ho' & Hid). congruence. }
  split; [|split; [|split; [done|split; [|split; [|split]]]]].
  - eexists. rewrite Hins, list_lookup_insert_eq by done. done.
  - apply Permutation_singleton_r. rewrite Htm, enqueue_perm.
    rewrite filter_cons_True by done. constructor.
    rewrite filter_none; [done|].
    by intros tm [Hne _]%list_elem_of_filter.
  - unfold state_of. destruct (db_timerId inst) eqn:Hid; [done|]. intros _.
    apply filter_none. intros tm Hin Ho. apply Hmine in Hin; [congruence|done].
  - unfold state_of. destruct (db_timerId inst) as [id|] eqn:Hid; [|done]. intros _.
    destruct (wf_pending _ Hwf h inst id Hinst Hid) as (old & Hin & <- & Ho).
    exists old. repeat split; try done.
    rewrite Htm. intros tm [->|Hin']%elem_of_enqueue; simpl.
    + apply (wf_fresh _ Hwf) in Hin. lia.
    + apply list_elem_of_filter in Hin' as [Hne Hin'].
      intros Heq. apply Hne.
      assert (tm = old) as -> by eauto using timer_id_inj, wf_nodup. done.
  - intros tm q cb Hq Hcb.
    assert (wf (set_timers (tm :: q) w)) as Hwf'
      by (rewrite <- Hq; by rewrite set_timers_id).
    destruct (wf_owner _ Hwf tm) as (o & Ho & Hid); [rewrite Hq; left|].
    destruct (wf_fire tm q w Hwf') as (_ & Htm' & _ & _ & _ & Hlog' & _).
    pose proof (wf_nodup _ Hwf) as Hnd. rewrite Hq in Hnd.
    apply NoDup_fmap_1, NoDup_cons in Hnd as [Hnin _].
    exists o. eexists. rewrite Hlog', Hcb, Htm'.
    rewrite (fire_eq tm (set_timers q w) o) by done. simpl.
    rewrite list_lookup_insert_eq by eauto using lookup_lt_Some.
    unfold state_of at 1. rewrite Hid. done.
  - destruct (wf_bound _ Hwf) as [cb Hcb]; [by rewrite Hm|].
    destruct (rearm_fires w d h cb Hwf Hm Hcb) as [l Hl]. eauto.
Qed.

Lemma scheduler_is_a_two_state_machine_witness :
  filter (λ tm, tm_owner tm = 0)
         (timers (run ([Render (save 1) None; Notify; Wait 300] ++ [Notify])))
  = [{| tm_id := next_timer (run [Render (save 1) None; Notify; Wait 300]);
        tm_due := now (run [Render (save 1) None; Notify; Wait 300]) + 1000;
        tm_owner := 0 |}].
Proof.
  destruct (scheduler_is_a_two_state_machine
              [Render (save 1) None; Notify; Wait 300] 1000 0
              {| db_wait := 1000; db_timerId := Some 0 |})
    as (_ & H & _).
  - reflexivity.
  - reflexivity.
  - exact H.
Defined.

(** ** Failing callbacks *)

Lemma calm_fire tm w : calm_world (fire tm w) = fire tm (calm_world w).
Proof.
  unfold fire, Lodash.timerExpired, func, calm_world. simpl.
  destruct (instances w !! tm_owner tm); simpl;
    destruct (ref_current (hook w)) as [[id []]|]; simpl;
    by rewrite ?fmap_app.
Qed.

Lemma calm_run_due target q : ∀ w,
  calm_world (run_due target q w) = run_due target q (calm_world w).
Proof.
  induction q as [|tm q IH]; intros w; simpl; [done|].
  destruct (tm_due tm <=? target); [|done].
  by rewrite IH, calm_fire.
Qed.

Lemma calm_wait dt w : calm_world (wait dt w) = wait dt (calm_world w).
Proof.
  unfold wait. change (now (calm_world w)) with (now w).
  change (timers (calm_world w)) with (timers w).
  by rewrite <- calm_run_due.
Qed.

Lemma calm_debounced h w :
  calm_world (Lodash.debounced h w) = Lodash.debounced h (calm_world w).
Proof.
  unfold Lodash.debounced. simpl.
  destruct (instances w !! h) as [d|]; [|done]. by destruct (db_timerId d).
Qed.

Lemma calm_render cb delay w :
  effect_deps (hook w) = ref_current (hook w) →
  calm_world (snd (useDebounce cb delay w))
  = snd (useDebounce (succeed cb) delay (calm_world w)).
Proof.
  intros Hdeps. unfold useDebounce. rewrite !useMemo_debounce_eq. simpl.
  destruct (memo (hook w)) as [[d h]|];
    [destruct (decide (d = default 1000 delay))|];
    simpl; unfold useEffect_ref; simpl; rewrite Hdeps;
    (destruct (ref_current (hook w)) as [cb0|] eqn:Href; simpl;
     [destruct (decide (cb0 = cb)) as [Hsame|],
               (decide (succeed cb0 = succeed cb)) as [Heq|]|]);
    try done; try (by subst cb0);
    unfold calm_world, calm_hook; simpl; rewrite ?Hdeps, ?Href; simpl;
    by rewrite ?Heq.
Qed.

Lemma calm_step e w :
  wf w → calm_world (step e w) = step (calm_event e) (calm_world w).
Proof.
  intros Hwf. destruct e as [cb delay| |dt]; simpl.
  - apply calm_render, Hwf.
  - destruct (memo (hook w)) as [[d h]|]; [apply calm_debounced|done].
  - apply calm_wait.
Qed.

Lemma calm_run tr : calm_world (run tr) = run (calm_event <$> tr).
Proof.
  induction tr as [|e tr IH] using rev_ind; [done|].
  rewrite fmap_app. change (calm_event <$> [e]) with [calm_event e].
  rewrite !run_snoc, <- IH. apply calm_step, wf_run.
Qed.

Lemma notify_uncaught w : uncaught (step Notify w) = uncaught w.
Proof.
  simpl. destruct (memo (hook w)) as [[d h]|]; [|done].
  unfold Lodash.debounced. destruct (instances w !! h) as [inst|]; [|done].
  by destruct (db_timerId inst).
Qed.

Lemma uncaught_run tr :
  uncaught (run tr) = filter (λ e, call e.2 = Throw) (log (run tr)).
Proof.
  induction tr as [|e tr IH] using rev_ind; [done|].
  rewrite run_snoc. destruct e as [cb delay| |dt].
  - destruct (render_frame cb delay (run tr)) as (_ & _ & _ & Hlog & Hunc & _).
    simpl. by rewrite Hlog, Hunc.
  - by rewrite notify_uncaught, notify_log.
  - change (step (Wait dt) (run tr)) with (wait dt (run tr)).
    destruct (wait_spec dt (run tr) (wf_run tr)) as (_ & _ & _ & _ & _ & Hlog & Hunc).
    rewrite Hlog, Hunc, filter_app, <- IH. f_equal.
    destruct (ref_current (hook (run tr))) as [cb|]; [|done].
    destruct (call cb) eqn:Hcall.
    + symmetry. apply filter_none.
      intros [t cb'] (tm & [= -> ->] & _)%list_elem_of_fmap_1. simpl. congruence.
    + symmetry. apply filter_all.
      by intros [t cb'] (tm & [= -> ->] & _)%list_elem_of_fmap_1.
Qed.

(** C7.  The exceptions the host sees are exactly those thrown by invoked
    callbacks, and [timerExpired] completes abruptly only when the callback
    it invoked threw.  Failures leave no trace in the scheduling: clock,
    timers and debounced functions of a run are those of the same run with
    every callback succeeding, and the same invocations are made at the
    same times.  In particular a call followed by a wait of the delay ends
    with an invocation of the bound callback, whatever failed before. *)
Theorem action_failure_does_not_stop_scheduler tr :
  uncaught (run tr) = filter (λ e, call e.2 = Throw) (log (run tr)) ∧
  (∀ h w, snd (Lodash.timerExpired h w) = Throw →
          ∃ cb, ref_current (hook w) = Some cb ∧ call cb = Throw) ∧
  calm_world (run tr) = run (calm_event <$> tr) ∧
  ∀ d h cb,
    memo (hook (run tr)) = Some (d, h) →
    ref_current (hook (run tr)) = Some cb →
    ∃ l, log (run (tr ++ [Notify; Wait d]))
         = log (run tr) ++ l ++ [(now (run tr) + d, cb)].
Proof.
  split; [apply uncaught_run|]. split; [|split; [apply calm_run|]].
  - intros h w. unfold Lodash.timerExpired, func.
    destruct (instances w !! h); simpl; [|done].
    destruct (ref_current (hook w)) as [cb|]; simpl; [eauto|done].
  - intros d h cb Hm Hcb. rewrite run_app.
    by apply (rearm_fires (run tr) d h cb (wf_run tr)).
Qed.

Lemma action_failure_does_not_stop_scheduler_witness :
  uncaught (run [Render (fails 1) None; Notify; Wait 1000]) = [(1000, fails 1)] ∧
  ∃ l, log (run ([Render (fails 1) None; Notify; Wait 1000] ++ [Notify; Wait 1000]))
       = log (run [Render (fails 1) None; Notify; Wait 1000]) ++ l ++
         [(now (run [Render (fails 1) None; Notify; Wait 1000]) + 1000, fails 1)].
Proof.
  split; [reflexivity|].
  destruct (action_failure_does_not_stop_scheduler
              [Render (fails 1) None; Notify; Wait 1000]) as (_ & _ & _ & H).
  apply (H 1000 0 (fails 1)); reflexivity.
Defined.

(** * Further properties of the hook *)

(** ** Frames *)

Lemma notify_hook w : hook (step Notify w) = hook w.
Proof.
  simpl. destruct (memo (hook w)) as [[d h]|]; [|done].
  unfold Lodash.debounced. destruct (instances w !! h) as [inst|]; [|done].
  by destruct (db_timerId inst).
Qed.

Lemma notify_now w : now (step Notify w) = now w.
Proof.
  simpl. destruct (memo (hook w)) as [[d h]|]; [|done].
  unfold Lodash.debounced. destruct (instances w !! h) as [inst|]; [|done].
  by destruct (db_timerId inst).
Qed.

Lemma insert_same_wait (l : list Debounced) h d t :
  l !! h = Some d →
  db_wait <$> <[h := {| db_wait := db_wait d; db_timerId := t |}]> l = db_wait <$> l.
Proof.
  intros Hd. rewrite list_fmap_insert. apply list_insert_id.
  by rewrite list_lookup_fmap, Hd.
Qed.

Lemma waits_fire tm w : db_wait <$> instances (fire tm w) = db_wait <$> instances w.
Proof.
  unfold fire, Lodash.timerExpired, func. simpl.
  destruct (instances w !! tm_owner tm) as [d|] eqn:Hd; simpl;
    destruct (ref_current (hook w)) as [cb|]; try destruct (call cb); simpl;
    try done; by apply insert_same_wait.
Qed.

Lemma waits_run_due target q : ∀ w,
  db_wait <$> instances (run_due target q w) = db_wait <$> instances w.
Proof.
  induction q as [|tm q IH]; intros w; simpl; [done|].
  destruct (tm_due tm <=? target); [|done].
  by rewrite IH, waits_fire.
Qed.

Lemma waits_wait dt w : db_wait <$> instances (wait dt w) = db_wait <$> instances w.
Proof. unfold wait. simpl. apply waits_run_due. Qed.

Lemma waits_notify w : db_wait <$> instances (step Notify w) = db_wait <$> instances w.
Proof.
  simpl. destruct (memo (hook w)) as [[d h]|]; [|done].
  destruct (instances w !! h) as [inst|] eqn:Hi;
    [|unfold Lodash.debounced; by rewrite Hi].
  rewrite (debounced_eq _ _ _ Hi). simpl. by apply insert_same_wait.
Qed.

(** No event changes the delay of a debounced function or removes one. *)
Lemma waits_step e w :
  ∃ new, db_wait <$> instances (step e w) = (db_wait <$> instances w) ++ new.
Proof.
  destruct e as [cb delay| |dt].
  - destruct (render_frame cb delay w) as (_ & _ & _ & _ & _ & new & Hnew & _).
    exists (db_wait <$> new). simpl. by rewrite Hnew, fmap_app.
  - exists []. by rewrite waits_notify, app_nil_r.
  - exists []. rewrite app_nil_r. apply waits_wait.
Qed.

Lemma waits_exec tr : ∀ w,
  ∃ new, db_wait <$> instances (exec tr w) = (db_wait <$> instances w) ++ new.
Proof.
  induction tr as [|e tr IH]; intros w.
  - exists []. by rewrite app_nil_r.
  - destruct (waits_step e w) as [n1 H1].
    destruct (IH (step e w)) as [n2 H2].
    exists (n1 ++ n2). unfold exec in *. simpl. by rewrite H2, H1, app_assoc.
Qed.

Lemma now_step e w : wf w → now w ≤ now (step e w).
Proof.
  intros Hwf. destruct e as [cb delay| |dt].
  - destruct (render_frame cb delay w) as (Hnow & _). simpl. by rewrite Hnow.
  - by rewrite notify_now.
  - destruct (wait_spec dt w Hwf) as (_ & Hnow & _).
    change (step (Wait dt) w) with (wait dt w). rewrite Hnow. lia.
Qed.

Lemma now_exec tr : ∀ w, wf w → now w ≤ now (exec tr w).
Proof.
  induction tr as [|e tr IH]; intros w Hwf; [done|].
  unfold exec in *. simpl. etrans; [by apply now_step|]. by apply IH, wf_step.
Qed.

Lemma last_render_snoc tr e : last_render (tr ++ [e]) = latest (last_render tr) e.
Proof. unfold last_render. by rewrite fold_left_app. Qed.

Lemma notifies_snoc tr e :
  notifies (tr ++ [e]) = notifies tr + if decide (e = Notify) then 1 else 0.
Proof.
  unfold notifies. rewrite filter_app, length_app, filter_cons, filter_nil.
  by case_decide.
Qed.

Lemma owners_nodup w : wf w → NoDup (tm_owner <$> timers w).
Proof.
  intros Hwf. apply NoDup_fmap_2_strong; [|eapply NoDup_fmap_1, (wf_nodup _ Hwf)].
  intros a b Ha Hb Hab.
  destruct (wf_owner _ Hwf a Ha) as (d & Hd & Hid).
  destruct (wf_owner _ Hwf b Hb) as (d' & Hd' & Hid').
  eapply timer_id_inj; [apply (wf_nodup _ Hwf)|done..|congruence].
Qed.

(** ** What the hook holds *)

Lemma hook_cells_of_run tr :
  ref_current (hook (run tr)) = fst <$> last_render tr ∧
  effect_deps (hook (run tr)) = fst <$> last_render tr ∧
  fst <$> memo (hook (run tr)) = snd <$> last_render tr ∧
  ∀ d h, memo (hook (run tr)) = Some (d, h) →
         db_wait <$> instances (run tr) !! h = Some d.
Proof.
  split; [|split; [|split]]; cycle 3.
  { intros d h Hm. destruct (wf_memo _ (wf_run tr) _ _ Hm) as (inst & -> & <-). done. }
  all: induction tr as [|e tr IH] using rev_ind; [done|];
    rewrite run_snoc, last_render_snoc; destruct e as [cb delay| |dt];
    [destruct (render_binds cb delay (run tr) (wf_run tr))
       as (Href & Hdeps & h & Hm & _); simpl in *; by rewrite ?Href, ?Hdeps, ?Hm
    |by rewrite notify_hook
    |destruct (wait_spec dt (run tr) (wf_run tr)) as (_ & _ & _ & Hhook & _);
     change (step (Wait dt) (run tr)) with (wait dt (run tr)); by rewrite Hhook].
Qed.

(** X1.  After any run the ref and the effect's dependency hold the callback
    of the latest render, and the memo holds a debounced function made for
    the delay of the latest render; before the first render all are empty. *)
Theorem hook_tracks_last_render tr :
  ref_current (hook (run tr)) = fst <$> last_render tr ∧
  effect_deps (hook (run tr)) = fst <$> last_render tr ∧
  fst <$> memo (hook (run tr)) = snd <$> last_render tr ∧
  ∀ d h, memo (hook (run tr)) = Some (d, h) →
         db_wait <$> instances (run tr) !! h = Some d.
Proof. apply hook_cells_of_run. Qed.

(** X2.  A re-render with the callback and the delay of the previous render
    changes nothing at all, and returns the debounced callback the previous
    render returned. *)
Theorem unchanged_rerender_is_noop tr cb delay :
  last_render tr = Some (cb, default 1000 delay) →
  run (tr ++ [Render cb delay]) = run tr ∧
  Some (fst (useDebounce cb delay (run tr))) = snd <$> memo (hook (run tr)).
Proof.
  intros Hlast.
  destruct (hook_cells_of_run tr) as (_ & Hdeps & Hm & _).
  rewrite Hlast in Hdeps, Hm. simpl in Hdeps, Hm.
  destruct (memo (hook (run tr))) as [[d h]|] eqn:Hmemo; [|done].
  injection Hm as ->.
  rewrite run_snoc. simpl. unfold useDebounce.
  rewrite useMemo_debounce_eq, Hmemo, decide_True by done. simpl.
  unfold useEffect_ref. rewrite Hdeps, decide_True by done. done.
Qed.

Lemma unchanged_rerender_is_noop_witness :
  run ([Render (save 1) None; Notify; Wait 400] ++ [Render (save 1) (Some 1000)])
  = run [Render (save 1) None; Notify; Wait 400].
Proof.
  apply (unchanged_rerender_is_noop
           [Render (save 1) None; Notify; Wait 400] (save 1) (Some 1000)).
  reflexivity.
Defined.

(** ** Timers and invocations *)

Lemma timers_le_instances w :
  wf w → length (timers w) ≤ length (instances w).
Proof.
  intros Hwf. pose proof (owners_nodup _ Hwf) as Hnd.
  trans (length (seq 0 (length (instances w)))); [|by rewrite length_seq].
  rewrite <- (length_fmap tm_owner (timers w)).
  apply submseteq_length, NoDup_submseteq; [done|].
  intros o (tm & -> & Hin)%list_elem_of_fmap_1.
  destruct (wf_owner _ Hwf tm Hin) as (d & Hd & _).
  apply elem_of_seq. split; [lia|]. simpl. eauto using lookup_lt_Some.
Qed.

(** X3.  No debounced function ever has two timers pending, so there are
    never more pending timers than debounced functions. *)
Theorem one_timer_per_debounced_function tr :
  NoDup (tm_owner <$> timers (run tr)) ∧
  length (timers (run tr)) ≤ length (instances (run tr)) ∧
  ∀ h, length (filter (λ tm, tm_owner tm = h) (timers (run tr))) ≤ 1.
Proof.
  pose proof (wf_run tr) as Hwf. pose proof (owners_nodup _ Hwf) as Hnd.
  split; [done|]. split.
  - by apply timers_le_instances.
  - intros h. revert Hnd. generalize (timers (run tr)).
    induction l as [|tm l IH]; [simpl; lia|].
    rewrite fmap_cons, NoDup_cons. intros [Hnin Hnd].
    rewrite filter_cons. destruct (decide (tm_owner tm = h)) as [<-|]; [|by apply IH].
    rewrite filter_none; [simpl; lia|].
    intros x Hx Heq. apply Hnin. rewrite <- Heq. by apply list_elem_of_fmap_2.
Qed.

(** X4.  Debouncing never multiplies work: the invocations made so far and
    the timers still pending together never outnumber the calls of the
    debounced callback. *)
Theorem invocations_bounded_by_calls tr :
  length (log (run tr)) + length (timers (run tr)) ≤ notifies tr.
Proof.
  induction tr as [|e tr IH] using rev_ind; [done|].
  pose proof (wf_run tr) as Hwf.
  rewrite run_snoc, notifies_snoc. destruct e as [cb delay| |dt].
  - destruct (render_frame cb delay (run tr)) as (_ & Htm & _ & Hlog & _).
    simpl in *. rewrite Htm, Hlog. lia.
  - rewrite notify_log, decide_True by done.
    destruct (memo (hook (run tr))) as [[d h]|] eqn:Hm; [|simpl; rewrite Hm; lia].
    destruct (notify_spec (run tr) d h Hwf Hm) as (Htm & _).
    rewrite Htm, enqueue_perm. simpl.
    pose proof (length_filter (λ tm, tm_owner tm ≠ h) (timers (run tr))). lia.
  - change (step (Wait dt) (run tr)) with (wait dt (run tr)).
    destruct (wait_spec dt (run tr) Hwf) as (_ & _ & Htm & _ & _ & Hlog & _).
    rewrite Htm, Hlog, length_app, decide_False by done.
    pose proof (due_split (now (run tr) + dt) (timers (run tr))).
    destruct (ref_current (hook (run tr))); rewrite ?length_fmap; simpl; lia.
Qed.

(** X5.  Invocations are recorded in the order of their times, and none is
    dated later than the clock. *)
Theorem invocations_are_chronological tr :
  StronglySorted le (fst <$> log (run tr)) ∧
  Forall (λ e, e.1 ≤ now (run tr)) (log (run tr)).
Proof.
  induction tr as [|e tr [IHs IHn]] using rev_ind; [split; constructor|].
  pose proof (wf_run tr) as Hwf.
  rewrite run_snoc. destruct e as [cb delay| |dt].
  - destruct (render_frame cb delay (run tr)) as (Hnow & _ & _ & Hlog & _).
    simpl in *. by rewrite Hnow, Hlog.
  - by rewrite notify_log, notify_now.
  - change (step (Wait dt) (run tr)) with (wait dt (run tr)).
    destruct (wait_spec dt (run tr) Hwf) as (_ & Hnow & _ & _ & _ & Hlog & _).
    rewrite Hnow, Hlog.
    assert (Forall (λ e, e.1 ≤ now (run tr) + dt) (log (run tr))) as IHn'.
    { eapply Forall_impl; [exact IHn|]. simpl. intros; lia. }
    destruct (ref_current (hook (run tr))) as [cb|]; [|by rewrite app_nil_r].
    split.
    + rewrite fmap_app, <- list_fmap_compose.
      apply StronglySorted_app. split; [|split; [done|]].
      * intros t1 t2 (e1 & -> & H1)%list_elem_of_fmap_1 (tm & -> & H2)%list_elem_of_fmap_1.
        rewrite Forall_forall in IHn. apply IHn in H1.
        apply list_elem_of_filter in H2 as [_ H2]. apply (wf_due _ Hwf) in H2.
        simpl. lia.
      * apply (StronglySorted_fmap _ by_due le); [by intros ??|].
        apply filter_sorted, Hwf.
    + apply Forall_app. split; [done|].
      apply Forall_fmap, Forall_forall. by intros tm [? _]%list_elem_of_filter.
Qed.

(** ** Debounced functions over a run *)

Lemma length_instances_notify w :
  length (instances (step Notify w)) = length (instances w).
Proof.
  rewrite <- (length_fmap db_wait (instances (step Notify w))), waits_notify.
  apply length_fmap.
Qed.

Lemma length_instances_wait dt w :
  length (instances (wait dt w)) = length (instances w).
Proof.
  rewrite <- (length_fmap db_wait (instances (wait dt w))), waits_wait.
  apply length_fmap.
Qed.

Lemma constant_delay_inv d tr :
  Forall (constant_delay d) tr →
  (memo (hook (run tr)) = None ∧ length (instances (run tr)) = 0) ∨
  (memo (hook (run tr)) = Some (d, 0) ∧ length (instances (run tr)) = 1).
Proof.
  induction tr as [|e tr IH] using rev_ind; [by left|].
  intros [Htr He]%Forall_app. rewrite Forall_singleton in He.
  specialize (IH Htr). rewrite run_snoc. destruct e as [cb delay| |dt].
  - right. simpl in He. destruct IH as [[Hm Hlen]|[Hm Hlen]].
    + simpl. unfold useDebounce. rewrite useMemo_debounce_eq, Hm. simpl.
      unfold useEffect_ref. simpl.
      destruct (effect_deps (hook (run tr))) as [cb0|];
        [destruct (decide (cb0 = cb))|]; simpl;
        rewrite length_app, Hlen, He; done.
    + rewrite <- He in Hm.
      destruct (render_keeps cb delay (run tr) 0 Hm) as [Hm' Hi'].
      simpl. by rewrite Hm', Hi', He.
  - by rewrite notify_hook, length_instances_notify.
  - change (step (Wait dt) (run tr)) with (wait dt (run tr)).
    destruct (wait_spec dt (run tr) (wf_run tr)) as (_ & _ & _ & Hhook & _).
    by rewrite Hhook, length_instances_wait.
Qed.

(** X6.  As long as every render passes the same delay, the hook makes one
    debounced function and keeps it: every render returns that one, and at
    most one timer is ever pending. *)
Theorem constant_delay_one_debounced_function tr d :
  Forall (constant_delay d) tr →
  length (instances (run tr)) ≤ 1 ∧
  length (timers (run tr)) ≤ 1 ∧
  (∀ d' h, memo (hook (run tr)) = Some (d', h) → d' = d ∧ h = 0) ∧
  ∀ cb delay, default 1000 delay = d → fst (useDebounce cb delay (run tr)) = 0.
Proof.
  intros Hconst.
  pose proof (timers_le_instances _ (wf_run tr)) as Hle.
  destruct (constant_delay_inv d tr Hconst) as [[Hm Hlen]|[Hm Hlen]].
  - repeat split; try lia; try congruence.
    intros cb delay _. unfold useDebounce.
    rewrite useMemo_debounce_eq, Hm. simpl. done.
  - repeat split; try lia; try congruence.
    intros cb delay <-. unfold useDebounce.
    rewrite useMemo_debounce_eq, Hm, decide_True by done. done.
Qed.

Lemma constant_delay_one_debounced_function_witness :
  length (instances (run [Render (save 1) None; Notify; Wait 200;
                          Render (save 2) (Some 1000); Notify; Wait 1000;
                          Render (save 3) None; Notify])) ≤ 1.
Proof.
  apply (constant_delay_one_debounced_function
           [Render (save 1) None; Notify; Wait 200;
            Render (save 2) (Some 1000); Notify; Wait 1000;
            Render (save 3) None; Notify] 1000).
  repeat constructor.
Defined.

(** X7.  The delay of a debounced function is fixed when it is made: no
    later render, call or expiry changes it or removes the function. *)
Theorem debounced_function_keeps_its_delay tr tr' h d :
  instances (run tr) !! h = Some d →
  db_wait <$> instances (run (tr ++ tr')) !! h = Some (db_wait d).
Proof.
  intros Hd. rewrite run_app.
  destruct (waits_exec tr' (run tr)) as [new Hnew].
  rewrite <- list_lookup_fmap, Hnew.
  apply lookup_app_l_Some. by rewrite list_lookup_fmap, Hd.
Qed.

Lemma debounced_function_keeps_its_delay_witness :
  db_wait <$> instances (run ([Render (save 1) (Some 300)] ++
                              [Notify; Render (save 2) (Some 700); Notify; Wait 5000])) !! 0
  = Some (db_wait {| db_wait := 300; db_timerId := None |}).
Proof.
  apply (debounced_function_keeps_its_delay
           [Render (save 1) (Some 300)]
           [Notify; Render (save 2) (Some 700); Notify; Wait 5000]
           0 {| db_wait := 300; db_timerId := None |}).
  reflexivity.
Defined.

(** Every pending timer is due within the delay of its debounced function. *)
Lemma due_within_wait tr :
  ∀ tm, tm ∈ timers (run tr) →
    ∃ wt, (db_wait <$> instances (run tr)) !! tm_owner tm = Some wt ∧
          tm_due tm ≤ now (run tr) + wt.
Proof.
  induction tr as [|e tr IH] using rev_ind;
    [intros tm Hin; by apply elem_of_nil in Hin|].
  pose proof (wf_run tr) as Hwf. rewrite run_snoc.
  destruct e as [cb delay| |dt]; intros tm Hin.
  - destruct (render_frame cb delay (run tr)) as (Hnow & Htm & _ & _ & _ & new & Hnew & _).
    simpl in *. rewrite Htm in Hin. destruct (IH tm Hin) as (wt & Hwt & Hdue).
    exists wt. rewrite Hnow, Hnew, fmap_app. split; [|done].
    by apply lookup_app_l_Some.
  - rewrite waits_notify, notify_now.
    destruct (memo (hook (run tr))) as [[d h]|] eqn:Hm;
      [|simpl in Hin; rewrite Hm in Hin; by apply IH].
    destruct (notify_spec (run tr) d h Hwf Hm) as (Htm & _).
    rewrite Htm in Hin. apply elem_of_enqueue in Hin as [->|Hin].
    + destruct (wf_memo _ Hwf _ _ Hm) as (inst & Hi & Hw).
      exists d. simpl. by rewrite list_lookup_fmap, Hi, <- Hw.
    + apply list_elem_of_filter in Hin as [_ Hin]. by apply IH.
  - change (step (Wait dt) (run tr)) with (wait dt (run tr)) in *.
    destruct (wait_spec dt (run tr) Hwf) as (_ & Hnow & Htm & _).
    rewrite Htm in Hin. apply list_elem_of_filter in Hin as [_ Hin].
    destruct (IH tm Hin) as (wt & Hwt & Hdue).
    exists wt. rewrite waits_wait, Hnow. split; [done|lia].
Qed.

(** X8.  Once as much time has passed as the longest delay of any debounced
    function, nothing is pending any more: every timer has fired, at its due
    time and invoking the callback bound then, and every debounced function
    is idle. *)
Theorem quiet_after_longest_delay tr D :
  Forall (λ d, db_wait d ≤ D) (instances (run tr)) →
  timers (run (tr ++ [Wait D])) = [] ∧
  Forall (λ d, state_of d = Idle) (instances (run (tr ++ [Wait D]))) ∧
  ∀ cb, ref_current (hook (run tr)) = Some cb →
    log (run (tr ++ [Wait D]))
    = log (run tr) ++ ((λ tm, (tm_due tm, cb)) <$> timers (run tr)).
Proof.
  intros Hmax. pose proof (wf_run tr) as Hwf.
  pose proof (wf_run (tr ++ [Wait D])) as Hwf'.
  assert (∀ tm, tm ∈ timers (run tr) → tm_due tm ≤ now (run tr) + D) as Hdue.
  { intros tm Hin. destruct (due_within_wait tr tm Hin) as (wt & Hwt & Hle).
    apply list_lookup_fmap_Some in Hwt as (inst & -> & Hi).
    rewrite Forall_forall in Hmax.
    apply list_elem_of_lookup_2, Hmax in Hi. lia. }
  rewrite run_snoc in *. change (step (Wait D) (run tr)) with (wait D (run tr)) in *.
  destruct (wait_spec D (run tr) Hwf) as (_ & _ & Htm & _ & _ & Hlog & _).
  rewrite filter_none in Htm by (intros tm Hin; apply Hdue in Hin; lia).
  split; [done|]. split.
  - apply Forall_forall. intros d Hd.
    apply list_elem_of_lookup_1 in Hd as [h Hd].
    unfold state_of. destruct (db_timerId d) as [id|] eqn:Hid; [|done].
    destruct (wf_pending _ Hwf' h d id Hd Hid) as (tm & Hin & _).
    rewrite Htm in Hin. by apply elem_of_nil in Hin.
  - intros cb Hcb. rewrite Hlog, Hcb. by rewrite filter_all.
Qed.

Lemma quiet_after_longest_delay_witness :
  timers (run ([Render (save 1) (Some 1000); Notify; Wait 100;
                Render (save 2) (Some 500); Notify] ++ [Wait 1000])) = [].
Proof.
  apply (quiet_after_longest_delay
           [Render (save 1) (Some 1000); Notify; Wait 100;
            Render (save 2) (Some 500); Notify] 1000).
  vm_compute. repeat constructor; lia.
Defined.

Lemma superseded_stays tm : ∀ tr' w,
  wf w → tm ∈ timers w →
  (∃ d h, memo (hook w) = Some (d, h) ∧ tm_owner tm ≠ h) →
  now (exec tr' w) < tm_due tm →
  tm ∈ timers (exec tr' w).
Proof.
  induction tr' as [|e tr' IH]; intros w Hwf Hin (d & h & Hm & Hne) Hnow; [done|].
  change (exec (e :: tr') w) with (exec tr' (step e w)) in *.
  pose proof (now_exec tr' (step e w) (wf_step e w Hwf)) as Hmono.
  apply IH; [by apply wf_step| | |done].
  - destruct e as [cb delay| |dt].
    + destruct (render_frame cb delay w) as (_ & Htm & _). simpl in *. by rewrite Htm.
    + destruct (notify_spec w d h Hwf Hm) as (Htm & _). rewrite Htm.
      apply elem_of_enqueue. right. by apply list_elem_of_filter.
    + change (step (Wait dt) w) with (wait dt w) in *.
      destruct (wait_spec dt w Hwf) as (_ & Hnow' & Htm & _). rewrite Htm.
      apply list_elem_of_filter. split; [lia|done].
  - destruct e as [cb delay| |dt].
    + destruct (decide (d = default 1000 delay)) as [->|Hd].
      * destruct (render_keeps cb delay w h Hm) as [Hm' _]. simpl. eauto.
      * destruct (render_fresh cb delay w d h Hm Hd) as [Hm' _]. simpl.
        do 2 eexists. split; [exact Hm'|].
        destruct (wf_owner _ Hwf tm Hin) as (o & Ho & _).
        apply lookup_lt_Some in Ho. lia.
    + rewrite notify_hook. eauto.
    + change (step (Wait dt) w) with (wait dt w).
      destruct (wait_spec dt w Hwf) as (_ & _ & _ & Hhook & _).
      rewrite Hhook. eauto.
Qed.

(** X9.  A timer of a debounced function the hook has replaced is out of
    reach of the component's later renders and of calls of the debounced
    callback that the latest render returned: through any such events it
    stays pending until its due time.  (A call of the replaced function
    itself, which an earlier render returned, is not among these events.) *)
Theorem superseded_timer_outlives_latest_calls tr tr' tm d h :
  tm ∈ timers (run tr) →
  memo (hook (run tr)) = Some (d, h) →
  tm_owner tm ≠ h →
  now (run (tr ++ tr')) < tm_due tm →
  tm ∈ timers (run (tr ++ tr')).
Proof.
  intros Hin Hm Hne Hnow. rewrite run_app in *.
  apply superseded_stays; eauto using wf_run.
Qed.

Lemma superseded_timer_outlives_latest_calls_witness :
  {| tm_id := 0; tm_due := 1000; tm_owner := 0 |}
    ∈ timers (run ([Render (save 1) (Some 1000); Notify; Render (save 1) (Some 500)] ++
                   [Notify; Wait 300; Notify; Render (save 2) (Some 1000); Notify; Wait 600])).
Proof.
  apply (superseded_timer_outlives_latest_calls
           [Render (save 1) (Some 1000); Notify; Render (save 1) (Some 500)]
           [Notify; Wait 300; Notify; Render (save 2) (Some 1000); Notify; Wait 600]
           {| tm_id := 0; tm_due := 1000; tm_owner := 0 |} 500 1).
  - vm_compute. repeat constructor.
  - reflexivity.
  - simpl. lia.
  - vm_compute. lia.
Defined.

Lemma last_render_elem_of tr cb d :
  last_render tr = Some (cb, d) →
  ∃ delay, Render cb delay ∈ tr ∧ default 1000 delay = d.
Proof.
  induction tr as [|e tr IH] using rev_ind; [done|].
  rewrite last_render_snoc. destruct e as [cb' delay| |dt]; simpl.
  - intros [= -> <-]. exists delay. split; [|done].
    apply elem_of_app. right. by left.
  - intros (delay & Hin & Hd)%IH. exists delay. split; [|done].
    apply elem_of_app. by left.
  - intros (delay & Hin & Hd)%IH. exists delay. split; [|done].
    apply elem_of_app. by left.
Qed.

(** X10.  Whatever is invoked was handed to the hook by a render of the
    run: the hook never calls anything else. *)
Theorem only_rendered_callbacks_are_invoked tr :
  Forall (λ e, ∃ delay, Render e.2 delay ∈ tr) (log (run tr)).
Proof.
  induction tr as [|e tr IH] using rev_ind; [constructor|].
  assert (Forall (λ e0, ∃ delay, Render e0.2 delay ∈ tr ++ [e]) (log (run tr))) as IH'.
  { eapply Forall_impl; [exact IH|]. simpl. intros e0 [delay Hin].
    exists delay. apply elem_of_app. by left. }
  rewrite run_snoc. destruct e as [cb delay| |dt].
  - destruct (render_frame cb delay (run tr)) as (_ & _ & _ & Hlog & _).
    simpl in *. by rewrite Hlog.
  - by rewrite notify_log.
  - change (step (Wait dt) (run tr)) with (wait dt (run tr)).
    destruct (wait_spec dt (run tr) (wf_run tr)) as (_ & _ & _ & _ & _ & Hlog & _).
    rewrite Hlog. apply Forall_app. split; [done|].
    destruct (hook_cells_of_run tr) as (Href & _).
    destruct (ref_current (hook (run tr))) as [cb|]; [|constructor].
    destruct (last_render tr) as [[cb' d]|] eqn:Hlast; [|done].
    injection Href as ->.
    destruct (last_render_elem_of tr cb' d Hlast) as (delay & Hin & _).
    apply Forall_fmap, Forall_forall. intros tm _. simpl.
    exists delay. apply elem_of_app. by left.
Qed.
